(** * Verification of the difacto core: the SpMM kernel (common/spmm.h)
    and the DiFacto driver (difacto.cc).

    Numbers of the template parameter [V] are modelled as exact integers
    [Z]; a [std::vector<V>] is a [list Z]; an index of type [size_t] is
    a [nat]; the [int dim] of the SpMM kernel is a [Z] obtained from a
    [size_t] by the 32-bit conversion [to_int]; a feature index of type
    [unsigned] is an [N] whose products are reduced modulo 2^32 as the
    C++ code does. *)

From Stdlib Require Import String.
From Stdlib Require Import List Arith Lia ZArith NArith Permutation Bool.
Import ListNotations.

(** ** Sparse matrices and dense buffers *)
Module SpMM.

(** [dmlc::RowBlock<unsigned>]: [size] rows, [offset[0..size]],
    [index[]] and an optional [value[]] (a NULL [value] pointer is
    [None]). *)
Record SpMat := mkSpMat {
  size : nat;
  offset : list nat;
  index : list N;
  value : option (list Z)
}.

(** Reads of the C arrays; the theorems only read in bounds. *)
Definition rd_nat (l : list nat) (i : nat) : nat := nth i l 0.
Definition rd_N (l : list N) (i : nat) : N := nth i l 0%N.
Definition rd_Z (l : list Z) (i : nat) : Z := nth i l 0%Z.

(** [static_cast<int>] of a [size_t] (also the implicit conversion of
    [int dim = x.size() / D.size]): the value modulo 2^32 read as a 32-bit
    two's-complement number (the rule of C++20, and what GCC and Clang do
    before it). *)
Definition to_int (n : nat) : Z :=
  let r := (Z.of_nat n mod 2 ^ 32)%Z in
  if (r <? 2 ^ 31)%Z then r else (r - 2 ^ 32)%Z.

(** [D.index[j] * dim]: an [unsigned] times an [int] is computed as an
    [unsigned], that is modulo 2^32. *)
Definition u32_mul (e : N) (dim : nat) : nat :=
  N.to_nat ((e * N.of_nat dim) mod 2 ^ 32)%N.

(** One [y[a] += d] executed by the kernel: the address and the addend. *)
Definition Act : Type := (nat * Z)%type.

Fixpoint modify_nth (y : list Z) (a : nat) (d : Z) : list Z :=
  match y, a with
  | [], _ => []
  | v :: y', 0 => (v + d)%Z :: y'
  | v :: y', S a' => v :: modify_nth y' a' d
  end.

Definition apply_act (y : list Z) (ad : Act) : list Z :=
  modify_nth y (fst ad) (snd ad).

Definition run_acts (acts : list Act) (y : list Z) : list Z :=
  fold_left apply_act acts y.

(** [for (i = 0; i < n; ++i) y[i] = f(i)]: [memset] is [f = 0]. *)
Fixpoint set_prefix (f : nat -> Z) (n : nat) (y : list Z) : list Z :=
  match y, n with
  | [], _ => []
  | _, 0 => y
  | _ :: y', S n' => f 0 :: set_prefix (fun i => f (S i)) n' y'
  end.

Definition memset0 (n : nat) (y : list Z) : list Z :=
  set_prefix (fun _ => 0%Z) n y.

(** Modelled from the spec: [Range] and [Range::Segment] of
    common/range.h (not in the sources): [Segment(t, T)] is the [t]-th of
    [T] contiguous near-equal pieces of [[begin, end)], and [Has(i)] tests
    membership. *)
Record Range := mkRange { rbegin : nat; rend : nat }.

Definition Segment (r : Range) (idx nparts : nat) : Range :=
  let len := rend r - rbegin r in
  mkRange (rbegin r + len * idx / nparts) (rbegin r + len * S idx / nparts).

Definition Has (r : Range) (i : nat) : bool :=
  (rbegin r <=? i) && (i <? rend r).

(** An OpenMP parallel region of [nthr] threads running [body tid]:
    the list of per-thread traces of updates [y[a] += d]. *)
Definition region (nthr : nat) (body : nat -> list Act) : list (list Act) :=
  map body (seq 0 nthr).

(** No two threads update the same element. A [+=] reads and writes its
    element, so two threads updating one element without
    synchronisation are a data race. *)
Fixpoint race_free (trs : list (list Act)) : bool :=
  match trs with
  | [] => true
  | tr :: trs' =>
      forallb (fun ad => forallb (fun tr' =>
        negb (existsb (fun ad' => fst ad' =? fst ad) tr')) trs') tr &&
      race_free trs'
  end.

(** The updates of the threads, thread after thread. Without a race,
    the threads update disjoint elements, and [run_acts_perm] below shows
    that any other order of the updates gives the same buffer. *)
Definition region_run (nthr : nat) (body : nat -> list Act) (y : list Z) :=
  run_acts (concat (region nthr body)) y.

(** The parallel region: a data race is undefined behaviour ([None]). *)
Definition region_exec (nthr : nat) (body : nat -> list Act) (y : list Z)
  : option (list Z) :=
  if race_free (region nthr body) then Some (region_run nthr body y)
  else None.

(** *** [Times] (private): [y = D * x] *)

(** One iteration of the row loop of thread code:
    [if (D.offset[i] == D.offset[i+1]) continue; ...]. *)
Definition times_row (D : SpMat) (x : list Z) (dim i : nat) : list Act :=
  let b := rd_nat (offset D) i in
  let e := rd_nat (offset D) (S i) in
  if b =? e then [] else
  let y_i := i * dim in
  match value D with
  | Some vals =>
      flat_map (fun j =>
        let x_j := u32_mul (rd_N (index D) j) dim in
        let v := rd_Z vals j in
        map (fun k => (y_i + k, (rd_Z x (x_j + k) * v)%Z)) (seq 0 dim))
        (seq b (e - b))
  | None =>
      flat_map (fun j =>
        let x_j := u32_mul (rd_N (index D) j) dim in
        map (fun k => (y_i + k, rd_Z x (x_j + k))) (seq 0 dim))
        (seq b (e - b))
  end.

Definition times_thread (D : SpMat) (x : list Z) (dim nthr tid : nat)
  : list Act :=
  let rg := Segment (mkRange 0 (size D)) tid nthr in
  flat_map (times_row D x dim) (seq (rbegin rg) (rend rg - rbegin rg)).

(** [memset(y, 0, D.size * dim * sizeof(V))]: a negative [dim] converted
    to [size_t] asks for [2^64 - D.size * |dim| * sizeof(V)] bytes, more
    than [y] has (an object has fewer than 2^63 bytes, and [y] has at
    least [D.size * |dim|] elements): it writes past [y], undefined
    behaviour ([None]). Otherwise the loops run with [dim] elements per
    row. *)
Definition Times_priv (D : SpMat) (x y : list Z) (dim : Z) (nt : nat)
  : option (list Z) :=
  if (dim <? 0)%Z then None
  else
    let d := Z.to_nat dim in
    region_exec nt (times_thread D x d nt) (memset0 (size D * d) y).

(** *** [TransTimes] (private): [y = D' * x (+ p * z)] *)

Definition trans_row (D : SpMat) (x : list Z) (dim : nat) (rg : Range)
  (i : nat) : list Act :=
  let b := rd_nat (offset D) i in
  let e := rd_nat (offset D) (S i) in
  if b =? e then [] else
  let x_i := i * dim in
  match value D with
  | Some vals =>
      flat_map (fun j =>
        let e := rd_N (index D) j in
        if Has rg (N.to_nat e) then
          let v := rd_Z vals j in
          let y_j := u32_mul e dim in
          map (fun k => (y_j + k, (rd_Z x (x_i + k) * v)%Z)) (seq 0 dim)
        else [])
        (seq b (e - b))
  | None =>
      flat_map (fun j =>
        let e := rd_N (index D) j in
        if Has rg (N.to_nat e) then
          let y_j := u32_mul e dim in
          map (fun k => (y_j + k, rd_Z x (x_i + k))) (seq 0 dim)
        else [])
        (seq b (e - b))
  end.

Definition trans_thread (D : SpMat) (x : list Z) (y_size dim nthr tid : nat)
  : list Act :=
  let rg := Segment (mkRange 0 (y_size / dim)) tid nthr in
  flat_map (trans_row D x dim rg) (seq 0 (size D)).

(** [if (z) y[i] = z[i] * p; else memset(y, 0, ...)]; [z = None] is the
    NULL pointer. *)
Definition trans_fill (z : option (list Z)) (p : Z) (y_size : nat)
  (y : list Z) : list Z :=
  match z with
  | Some z => set_prefix (fun i => (rd_Z z i * p)%Z) y_size y
  | None => memset0 y_size y
  end.

(** [y_size / dim] with [dim = 0] is a division by zero: [None]. With a
    negative [dim] the loops [for (int k = 0; k < dim; ++k)] never run
    (and [Range(0, y_size / dim)], [dim] converted to [size_t], is empty):
    only the fill is done. *)
Definition TransTimes_priv (D : SpMat) (x : list Z) (z : option (list Z))
  (p : Z) (y : list Z) (y_size : nat) (dim : Z) (nt : nat)
  : option (list Z) :=
  let y0 := trans_fill z p y_size y in
  if (dim =? 0)%Z then None
  else if (dim <? 0)%Z then Some y0
  else region_exec nt (trans_thread D x y_size (Z.to_nat dim) nt) y0.

(** *** Public entry points. [None] is a crash (division by zero). *)

Definition Times (D : SpMat) (x y : list Z) (nt : nat) : option (list Z) :=
  match x with
  | [] => Some y
  | _ =>
      if size D =? 0 then None
      else let dim := to_int (length y / size D) in Times_priv D x y dim nt
  end.

Definition TransTimesBias (D : SpMat) (x : list Z) (p : Z) (z y : list Z)
  (nt : nat) : option (list Z) :=
  match x with
  | [] => Some y
  | _ =>
      if size D =? 0 then None
      else
        let dim := to_int (length x / size D) in
        if (length z =? length y) && negb (p =? 0)%Z
        then TransTimes_priv D x (Some z) p y (length y) dim nt
        else TransTimes_priv D x None 0 y (length y) dim nt
  end.

Definition TransTimes (D : SpMat) (x y : list Z) (nt : nat)
  : option (list Z) :=
  TransTimesBias D x 0 [] y nt.

(** *** The mathematical products the kernel is meant to compute *)

Definition sumZ (l : list Z) : Z := fold_right Z.add 0%Z l.

(** [value(j)], 1 when the matrix carries no values. *)
Definition nz_val (D : SpMat) (j : nat) : Z :=
  match value D with Some vals => rd_Z vals j | None => 1%Z end.

Definition row_range (D : SpMat) (i : nat) : list nat :=
  seq (rd_nat (offset D) i)
      (rd_nat (offset D) (S i) - rd_nat (offset D) i).

(** [(D x)[i*dim+k]]. *)
Definition row_dot (D : SpMat) (x : list Z) (dim i k : nat) : Z :=
  sumZ (map (fun j =>
    (nz_val D j * rd_Z x (N.to_nat (rd_N (index D) j) * dim + k))%Z)
    (row_range D i)).

(** [(D' x)[e*dim+k]]. *)
Definition col_dot (D : SpMat) (x : list Z) (dim e k : nat) : Z :=
  sumZ (flat_map (fun i =>
    map (fun j =>
      if N.to_nat (rd_N (index D) j) =? e
      then (nz_val D j * rd_Z x (i * dim + k))%Z else 0%Z)
      (row_range D i))
    (seq 0 (size D))).

(** Sum of the addends a trace applies at address [a]. *)
Definition acts_at (a : nat) (acts : list Act) : Z :=
  sumZ (map (fun ad => if fst ad =? a then snd ad else 0%Z) acts).

(** The updates of one nonzero [j] of row [i], as in the loops above. *)
Definition times_nz (D : SpMat) (x : list Z) (dim i j : nat) : list Act :=
  match value D with
  | Some vals =>
      map (fun k => (i * dim + k,
        (rd_Z x (u32_mul (rd_N (index D) j) dim + k) * rd_Z vals j)%Z))
        (seq 0 dim)
  | None =>
      map (fun k => (i * dim + k,
        rd_Z x (u32_mul (rd_N (index D) j) dim + k))) (seq 0 dim)
  end.

Definition trans_nz (D : SpMat) (x : list Z) (dim i j : nat) : list Act :=
  match value D with
  | Some vals =>
      map (fun k => (u32_mul (rd_N (index D) j) dim + k,
        (rd_Z x (i * dim + k) * rd_Z vals j)%Z)) (seq 0 dim)
  | None =>
      map (fun k => (u32_mul (rd_N (index D) j) dim + k,
        rd_Z x (i * dim + k))) (seq 0 dim)
  end.

(** The nonzeros the row loop visits for row [i]. *)
Definition row_loop (D : SpMat) (i : nat) : list nat :=
  let b := rd_nat (offset D) i in
  let e := rd_nat (offset D) (S i) in
  if b =? e then [] else seq b (e - b).

(** The bounds of the segments of [Range(0, n)] for [nt] threads. *)
Definition seg_b (n nt t : nat) : nat := 0 + (n - 0) * t / nt.

(** Every stored column index of the rows [0 .. size-1] is below [m]. *)
Definition index_below (D : SpMat) (m : nat) : bool :=
  forallb (fun i =>
    forallb (fun j => N.to_nat (rd_N (index D) j) <? m) (row_range D i))
    (seq 0 (size D)).

(** The example matrix of the spec: rows [(col0 = 1)], [(col0 = 2,
    col1 = 3)] and an empty row. *)
Definition exD : SpMat := mkSpMat 3 [0; 1; 3; 3] [0; 0; 1]%N (Some [1; 2; 3]%Z).


(** The dot product [sum_a u[a] * v[a]] over the elements of [u]. *)
Definition dot (u v : list Z) : Z :=
  sumZ (map (fun a => (rd_Z u a * rd_Z v a)%Z) (seq 0 (length u))).

(** [D] with an explicit value array of [n] ones. *)
Definition with_unit_values (D : SpMat) (n : nat) : SpMat :=
  mkSpMat (size D) (offset D) (index D) (Some (repeat 1%Z n)).

(** The shape a [dmlc::RowBlock] promises: [size + 1] non-decreasing
    offsets, and index and value arrays covering [offset[size]]. *)
Definition well_formed (D : SpMat) : bool :=
  (length (offset D) =? S (size D)) &&
  forallb (fun i => rd_nat (offset D) i <=? rd_nat (offset D) (S i))
    (seq 0 (size D)) &&
  (rd_nat (offset D) (size D) <=? length (index D)) &&
  match value D with
  | Some vals => rd_nat (offset D) (size D) <=? length vals
  | None => true
  end.

End SpMM.

(** ** Jobs (difacto/difacto.h) *)
Module JobDefs.

Inductive JobType := kLoadModel | kSaveModel | kTraining | kValidation
                   | kPrediction.

Definition JobType_eqb (a b : JobType) : bool :=
  match a, b with
  | kLoadModel, kLoadModel | kSaveModel, kSaveModel
  | kTraining, kTraining | kValidation, kValidation
  | kPrediction, kPrediction => true
  | _, _ => false
  end.

Record Job := mkJob {
  type : JobType;
  epoch : nat;
  filename : string;
  part_idx : nat;
  num_parts : nat
}.

End JobDefs.

(** ** [DiFacto::ProcessFile]: the batch pipeline of one partition *)
Module Pipeline.
Import JobDefs.

(** Batches are named by their position in the partition. *)
Definition BatchId := nat.

(** Store operations in flight. *)
Inductive StoreOp :=
| OpPullWeight (b : BatchId)       (* store_->Pull(Store::kWeight, ...) *)
| OpPushGradient (b : BatchId)     (* store_->Push(Store::kGradient, ...) *)
| OpPushFeaCount (b : BatchId).    (* store_->Push(Store::kFeaCount, ...) *)

(** What an execution does, in order. *)
Inductive Event :=
| ECompact (b : BatchId) (counts : bool)  (* lc.Compact(..., feacnt or nullptr) *)
| EPushFeaCount (b : BatchId)
| EFeaCountDone (b : BatchId)
| EAdd (b : BatchId)                      (* tracker.Add({batch}) *)
| EPullWeight (b : BatchId)
| EWeightDone (b : BatchId)               (* pull_callback starts *)
| EPushGradient (b : BatchId)
| EGradientDone (b : BatchId)
| EComplete (b : BatchId)                 (* on_complete() *)
| EReturn.                                (* ProcessFile returns *)

(** Where the thread running [ProcessFile] is. *)
Inductive PC :=
| PRead                  (* while (reader.Next()) *)
| PWaitCnt (b : BatchId) (* store_->Wait(store_->Push(kFeaCount, ...)) *)
| PThrottle (b : BatchId)(* while (tracker.NumRemains() > 10) Sleep(10); *)
| PAdd (b : BatchId)     (* tracker.Add({batch}); *)
| PDrain                 (* while (tracker.NumRemains() > 0) Sleep(10); *)
| PDone.

Record PState := mkPState {
  pc : PC;
  unread : nat;              (* batches the reader has left *)
  next_id : BatchId;
  remains : nat;             (* tracker.NumRemains() *)
  pending : list StoreOp;    (* store operations not yet completed *)
  trace : list Event         (* newest first *)
}.

Definition init (nbatches : nat) : PState :=
  mkPState PRead nbatches 0 0 [] [].

Definition set_pc (p : PC) (s : PState) : PState :=
  mkPState p (unread s) (next_id s) (remains s) (pending s) (trace s).
Definition emit (e : Event) (s : PState) : PState :=
  mkPState (pc s) (unread s) (next_id s) (remains s) (pending s) (e :: trace s).
Definition issue (op : StoreOp) (s : PState) : PState :=
  mkPState (pc s) (unread s) (next_id s) (remains s) (op :: pending s) (trace s).
Definition set_remains (n : nat) (s : PState) : PState :=
  mkPState (pc s) (unread s) (next_id s) n (pending s) (trace s).
Definition set_pending (l : list StoreOp) (s : PState) : PState :=
  mkPState (pc s) (unread s) (next_id s) (remains s) l (trace s).

Section ProcessFile.
Variable job : Job.

(** [bool push_cnt = job.type == Job::kTraining && job.epoch == 0;] *)
Definition push_cnt : bool :=
  JobType_eqb (type job) kTraining && (epoch job =? 0).

(** Modelled from the spec: the completion closure handed by
    [Tracker::Add] (common/tracker.h, not in the sources) to the
    consumer; it decrements the outstanding count once. *)
Definition on_complete (b : BatchId) (s : PState) : PState :=
  emit (EComplete b) (set_remains (remains s - 1) s).

(** [pull_callback]: training pushes the gradient and completes in the
    push's callback; otherwise it completes at once. *)
Definition pull_callback (b : BatchId) (s : PState) : PState :=
  if JobType_eqb (type job) kTraining
  then issue (OpPushGradient b) (emit (EPushGradient b) s)
  else on_complete b s.

(** The consumer set with [tracker.SetConsumer]:
    [store_->Pull(Store::kWeight, batch.feaids, val, val_siz, pull_callback)]. *)
Definition consumer (b : BatchId) (s : PState) : PState :=
  issue (OpPullWeight b) (emit (EPullWeight b) s).

(** Modelled from the spec: [Tracker::Add] increments the outstanding
    count, then calls the consumer synchronously. *)
Definition tracker_add (b : BatchId) (s : PState) : PState :=
  consumer b (emit (EAdd b) (set_remains (S (remains s)) s)).

(** Modelled from the spec: a store operation completes (the store's
    transport is outside the sources) and runs its callback:
    [pull_callback] for the pull, [on_complete] for the gradient push;
    the feature-count push has none. *)
Definition store_done (op : StoreOp) (s : PState) : PState :=
  match op with
  | OpPushFeaCount b => emit (EFeaCountDone b) s
  | OpPullWeight b => pull_callback b (emit (EWeightDone b) s)
  | OpPushGradient b => on_complete b (emit (EGradientDone b) s)
  end.

(** One atomic step of [ProcessFile]'s thread or of the store. *)
Inductive step : PState -> PState -> Prop :=
| StepRead s u :
    pc s = PRead -> unread s = S u ->
    let b := next_id s in
    let s1 := emit (ECompact b push_cnt)
                (mkPState (pc s) u (S b) (remains s) (pending s) (trace s)) in
    step s (if push_cnt
            then set_pc (PWaitCnt b) (issue (OpPushFeaCount b)
                   (emit (EPushFeaCount b) s1))
            else set_pc (PThrottle b) s1)
| StepReadEnd s :
    pc s = PRead -> unread s = 0 -> step s (set_pc PDrain s)
| StepWaitCnt s b :
    pc s = PWaitCnt b -> ~ In (OpPushFeaCount b) (pending s) ->
    step s (set_pc (PThrottle b) s)
| StepThrottle s b :
    pc s = PThrottle b -> remains s <= 10 -> step s (set_pc (PAdd b) s)
| StepAdd s b :
    pc s = PAdd b -> step s (tracker_add b (set_pc PRead s))
| StepDrain s :
    pc s = PDrain -> remains s = 0 -> step s (emit EReturn (set_pc PDone s))
| StepStore s l1 op l2 :
    pending s = l1 ++ op :: l2 ->
    step s (store_done op (set_pending (l1 ++ l2) s)).

Inductive reachable (n : nat) : PState -> Prop :=
| ReachInit : reachable n (init n)
| ReachStep s s' : reachable n s -> step s s' -> reachable n s'.


(** The store operations a batch in the tracker waits for. *)
Definition batch_op (op : StoreOp) : bool :=
  match op with OpPushFeaCount _ => false | _ => true end.

(** [e1] happens before every occurrence of [e2] (traces are newest
    first). *)
Definition before (e1 e2 : Event) (tr : list Event) : Prop :=
  forall l1 l2, tr = l1 ++ e2 :: l2 -> In e1 l2.

(** Every [EComplete b] directly follows [EGradientDone b]. *)
Fixpoint complete_after_gradient (tr : list Event) : bool :=
  match tr with
  | [] => true
  | EComplete b :: tr' =>
      match tr' with
      | EGradientDone b' :: _ => (b' =? b) && complete_after_gradient tr'
      | _ => false
      end
  | _ :: tr' => complete_after_gradient tr'
  end.

Definition is_training : bool := JobType_eqb (type job) kTraining.

Definition inv_drain (s : PState) : Prop :=
  remains s = length (filter batch_op (pending s)) /\
  (forall b, In (EAdd b) (trace s) ->
     In (OpPullWeight b) (pending s) \/ In (OpPushGradient b) (pending s) \/
     In (EComplete b) (trace s)) /\
  (is_training = true -> forall b, In (EAdd b) (trace s) ->
     In (OpPullWeight b) (pending s) \/ In (OpPushGradient b) (pending s) \/
     In (EGradientDone b) (trace s)) /\
  (is_training = true -> complete_after_gradient (trace s) = true).

Definition inv_feacount (s : PState) : Prop :=
  (forall b c, In (ECompact b c) (trace s) -> c = push_cnt) /\
  (push_cnt = true -> forall b,
     before (EFeaCountDone b) (EAdd b) (trace s) /\
     before (EFeaCountDone b) (EPullWeight b) (trace s)) /\
  (push_cnt = true -> forall b, pc s = PWaitCnt b ->
     In (OpPushFeaCount b) (pending s) \/ In (EFeaCountDone b) (trace s)) /\
  (push_cnt = true -> forall b, pc s = PThrottle b \/ pc s = PAdd b ->
     In (EFeaCountDone b) (trace s)).

End ProcessFile.

(** A first-epoch training job on one partition. *)
Definition train_job0 : Job := mkJob kTraining 0 "train" 0 100.

(** A validation job on one partition. *)
Definition val_job0 : Job := mkJob kValidation 0 "val" 0 100.

(** Counting the events and store operations of one batch. *)
Definition is_add (b : BatchId) (e : Event) : bool :=
  match e with EAdd b' => b' =? b | _ => false end.
Definition is_complete (b : BatchId) (e : Event) : bool :=
  match e with EComplete b' => b' =? b | _ => false end.
Definition batch_op_of (b : BatchId) (op : StoreOp) : bool :=
  match op with
  | OpPullWeight b' | OpPushGradient b' => b' =? b
  | OpPushFeaCount _ => false
  end.

(** Batch [b] has been read but not yet added to the tracker. *)
Definition in_flight (b : BatchId) (p : PC) : Prop :=
  p = PWaitCnt b \/ p = PThrottle b \/ p = PAdd b.

(** The bookkeeping of batch ids, for a reader of [n] batches. *)
Definition inv_ids (n : nat) (s : PState) : Prop :=
  next_id s + unread s = n /\
  (forall b, In (EAdd b) (trace s) -> b < next_id s) /\
  (forall b, in_flight b (pc s) -> S b = next_id s /\ ~ In (EAdd b) (trace s)) /\
  (forall b, b < next_id s -> In (EAdd b) (trace s) \/ in_flight b (pc s)) /\
  (pc s = PDrain \/ pc s = PDone -> unread s = 0) /\
  (forall b, length (filter (is_complete b) (trace s)) +
             length (filter (batch_op_of b) (pending s)) =
             length (filter (is_add b) (trace s))) /\
  (forall b, length (filter (is_add b) (trace s)) <= 1).

End Pipeline.

(** ** The [DiFacto] driver: [Init] and [RunScheduler] (difacto.cc) *)
Module Driver.
Import JobDefs.

(** [std::string::find(pat)] from position 0; [None] is [npos]. *)
Fixpoint starts_with (pat s : string) : bool :=
  match pat, s with
  | EmptyString, _ => true
  | String a pat', String b s' => Ascii.eqb a b && starts_with pat' s'
  | String _ _, EmptyString => false
  end.

Fixpoint find (pat s : string) : option nat :=
  if starts_with pat s then Some 0
  else match s with
       | EmptyString => None
       | String _ s' => option_map S (find pat s')
       end.

Definition is_npos (r : option nat) : bool :=
  match r with None => true | Some _ => false end.

(** [s] has [pat] as a substring. *)
Definition contains (pat s : string) : Prop :=
  exists pre post, s = (pre ++ pat ++ post)%string.

(** [KWArgs]: a [std::vector] of (key, value) string pairs. *)
Definition KWArgs := list (string * string).

(** The fields of [DiFactoParam] read by [Init] and [RunScheduler]. *)
Record DiFactoParam := mkParam {
  task : string;
  data_in : string;
  val_data : string;
  model_in : string;
  loss : string;
  max_num_epochs : Z
}.

(** The members of [DiFacto] set by [Init]: the parameters, [local_],
    the kinds of job tracker and store created, and the loss name. *)
Record DiFacto := mkDiFacto {
  param_ : DiFactoParam;
  local_ : bool;
  tracker_kind : string;
  store_kind : string;
  loss_name : string
}.

(** The value returned by [Init], the object after it, and the lines
    logged at level WARNING. *)
Record InitOut := mkInitOut {
  self : DiFacto;
  ret : KWArgs;
  warnings : list string
}.

Definition warn_line (kw : string * string) : string :=
  ("  " ++ fst kw ++ " : " ++ snd kw)%string.

Section Init.
(** The collaborators, whose code is not part of difacto.cc: each
    consumes the keyword arguments it knows and returns the others.
    [InitAllowUnknown] updates the parameters; the job tracker and the
    store are created by kind ("local" or "dist"), the loss by name. *)
Variable InitAllowUnknown : DiFactoParam -> KWArgs -> DiFactoParam * KWArgs.
Variable tracker_init : string -> KWArgs -> KWArgs.
Variable store_init : string -> KWArgs -> KWArgs.
Variable loss_init : string -> KWArgs -> KWArgs.

(** [DiFacto::Init]. *)
Definition Init (param0 : DiFactoParam) (kwargs : KWArgs) : InitOut :=
  let (param, remain) := InitAllowUnknown param0 kwargs in
  let local := is_npos (find "dist_" (task param)) in
  let kind := if local then "local"%string else "dist"%string in
  let remain := tracker_init kind remain in
  let remain := store_init kind remain in
  let remain := loss_init (loss param) remain in
  let log :=
    if local && negb (match remain with [] => true | _ => false end)
    then "unrecognized keyword argument:"%string :: map warn_line remain
    else [] in
  mkInitOut (mkDiFacto param local kind kind (loss param)) remain log.

End Init.

(** What [RunScheduler] does, in order: [tracker_->Add(jobs)], the
    polling loop [while (tracker_->NumRemains() != 0) ...] (taken to
    end), and one call of an epoch callback. *)
Inductive SEvent := SAdd (jobs : list Job) | SWait | SEpochCb.

(** [Finished], or the failure of a [CHECK] (the process aborts). *)
Inductive Outcome := Finished | CheckFailed.

Definition is_empty (s : string) : bool := String.eqb s EmptyString.

Section Scheduler.
(** The fields of a default-constructed [Job]. *)
Variable default_job : Job.
(** The number of registered epoch callbacks. *)
Variable n_epoch_cbs : nat.

(** [DiFacto::RunEpoch]. *)
Definition RunEpoch (p : DiFactoParam) (ep : nat) (jt : JobType)
  : list SEvent :=
  let fname := if JobType_eqb jt kValidation then val_data p else data_in p in
  if is_empty fname then []
  else [SAdd (map (fun i => mkJob jt ep fname i 100) (seq 0 100)); SWait].

Definition load_job (p : DiFactoParam) : Job :=
  mkJob kLoadModel (epoch default_job) (model_in p)
    (part_idx default_job) (num_parts default_job).

Definition train_epochs (p : DiFactoParam) : list SEvent :=
  flat_map (fun ep => RunEpoch p ep kTraining ++ RunEpoch p ep kValidation ++
                      repeat SEpochCb n_epoch_cbs)
    (seq 0 (Z.to_nat (max_num_epochs p))).

(** [DiFacto::RunScheduler]; [cur_epoch] is 0 at the prediction pass. *)
Definition RunScheduler (p : DiFactoParam) : list SEvent * Outcome :=
  let load :=
    if is_empty (model_in p) then [] else [SAdd [load_job p]; SWait] in
  if negb (is_npos (find "predict" (task p))) then
    if is_empty (model_in p) then (load, CheckFailed)
    else (load ++ RunEpoch p 0 kPrediction ++ train_epochs p, Finished)
  else (load ++ train_epochs p, Finished).

End Scheduler.

(** A job whose fields are all zero or empty. *)
Definition job0 : Job := mkJob kLoadModel 0 "" 0 0.

Definition is_epoch_cb (e : SEvent) : bool :=
  match e with SEpochCb => true | _ => false end.

End Driver.

(** ** Facts about the SpMM model *)
Module SpMMFacts.
Import SpMM.

(** *** Buffers *)

Lemma modify_nth_length y a d : length (modify_nth y a d) = length y.
Proof. revert a; induction y as [|v y IH]; intros [|a]; simpl; auto. Qed.

Lemma nth_modify_nth y a a' d :
  a < length y ->
  nth a (modify_nth y a' d) 0%Z = (nth a y 0 + if Nat.eqb a' a then d else 0)%Z.
Proof.
  revert a a'; induction y as [|v y IH]; intros a a' H; simpl in H; [lia|].
  destruct a' as [|a'], a as [|a]; simpl; try lia.
  apply IH; lia.
Qed.

Lemma run_acts_length acts y : length (run_acts acts y) = length y.
Proof.
  unfold run_acts; revert y; induction acts as [|ad acts IH]; intros y;
    simpl; [reflexivity|].
  rewrite IH; unfold apply_act; apply modify_nth_length.
Qed.

Lemma run_acts_nth acts y a :
  a < length y ->
  nth a (run_acts acts y) 0%Z = (nth a y 0 + acts_at a acts)%Z.
Proof.
  unfold run_acts, acts_at; revert y; induction acts as [|[a' d] acts IH];
    intros y H; simpl; [lia|].
  rewrite IH by (unfold apply_act; rewrite modify_nth_length; exact H).
  unfold apply_act; simpl; rewrite nth_modify_nth by exact H; lia.
Qed.

Lemma sumZ_app l1 l2 : sumZ (l1 ++ l2) = (sumZ l1 + sumZ l2)%Z.
Proof. induction l1; simpl; lia. Qed.

Lemma acts_at_app a l1 l2 :
  acts_at a (l1 ++ l2) = (acts_at a l1 + acts_at a l2)%Z.
Proof. unfold acts_at; rewrite map_app; apply sumZ_app. Qed.

Lemma acts_at_flat_map {A} a (f : A -> list Act) l :
  acts_at a (flat_map f l) = sumZ (map (fun u => acts_at a (f u)) l).
Proof.
  induction l as [|u l IH]; simpl; [reflexivity|].
  rewrite acts_at_app, IH; reflexivity.
Qed.

Lemma acts_at_perm a l1 l2 :
  Permutation l1 l2 -> acts_at a l1 = acts_at a l2.
Proof.
  intros HP; unfold acts_at; induction HP; simpl; lia.
Qed.

(** Any order of the same updates gives the same buffer. *)
Lemma run_acts_perm s1 s2 y :
  Permutation s1 s2 -> run_acts s1 y = run_acts s2 y.
Proof.
  intros HP; apply nth_ext with (d := 0%Z) (d' := 0%Z).
  - rewrite !run_acts_length; reflexivity.
  - intros a Ha; rewrite run_acts_length in Ha.
    rewrite !run_acts_nth by exact Ha.
    rewrite (acts_at_perm a _ _ HP); reflexivity.
Qed.

Lemma set_prefix_length f n y : length (set_prefix f n y) = length y.
Proof.
  revert f n; induction y as [|v y IH]; intros f [|n]; simpl; auto.
Qed.

Lemma nth_set_prefix f n y a :
  a < length y ->
  nth a (set_prefix f n y) 0%Z = if Nat.ltb a n then f a else nth a y 0%Z.
Proof.
  revert f n a; induction y as [|v y IH]; intros f n a H; simpl in H; [lia|].
  destruct n as [|n], a as [|a]; simpl; auto.
  rewrite IH by lia; reflexivity.
Qed.

Lemma sumZ_map_zero {A} (f : A -> Z) l :
  (forall u, In u l -> f u = 0%Z) -> sumZ (map f l) = 0%Z.
Proof.
  induction l as [|u l IH]; intros H; simpl; [reflexivity|].
  rewrite H by (left; reflexivity); rewrite IH by (intros; apply H; right; auto).
  reflexivity.
Qed.

Lemma sumZ_map_ext {A} (f g : A -> Z) l :
  (forall u, In u l -> f u = g u) -> sumZ (map f l) = sumZ (map g l).
Proof.
  intros H; f_equal; apply map_ext_in; exact H.
Qed.

(** A sum over [seq s n] of terms that vanish except at [i]. *)
Lemma sumZ_map_seq_single (f : nat -> Z) s n i :
  s <= i < s + n -> (forall u, u <> i -> f u = 0%Z) ->
  sumZ (map f (seq s n)) = f i.
Proof.
  revert s; induction n as [|n IH]; intros s Hi H; [lia|].
  simpl; destruct (Nat.eq_dec s i) as [->|Hne].
  - rewrite sumZ_map_zero; [lia|].
    intros u Hu; apply in_seq in Hu; apply H; lia.
  - rewrite H by exact Hne; rewrite IH by (auto; lia); lia.
Qed.

(** The address arithmetic of [y_i[k]] determines row and column. *)
Lemma addr_inj i k i' k' dim :
  k < dim -> k' < dim -> i * dim + k = i' * dim + k' -> i = i' /\ k = k'.
Proof.
  intros Hk Hk' E.
  destruct (Nat.lt_trichotomy i i') as [Hl|[->|Hl]].
  - exfalso. assert (i * dim + dim <= i' * dim) by nia. lia.
  - split; [reflexivity|lia].
  - exfalso. assert (i' * dim + dim <= i * dim) by nia. lia.
Qed.

(** The update block [map (fun k => (c + k, h k)) (seq 0 dim)]. *)
Lemma acts_at_block c (h : nat -> Z) dim k :
  acts_at (c + k) (map (fun k' => (c + k', h k')) (seq 0 dim)) =
  if k <? dim then h k else 0%Z.
Proof.
  unfold acts_at; rewrite map_map; simpl.
  destruct (k <? dim) eqn:E.
  - apply Nat.ltb_lt in E.
    rewrite (sumZ_map_seq_single _ 0 dim k); [rewrite Nat.eqb_refl; reflexivity|lia|].
    intros u Hu; simpl.
    destruct (c + u =? c + k) eqn:F; [apply Nat.eqb_eq in F; lia|reflexivity].
  - apply Nat.ltb_ge in E.
    apply sumZ_map_zero; intros u Hu; apply in_seq in Hu.
    destruct (c + u =? c + k) eqn:F; [apply Nat.eqb_eq in F; lia|reflexivity].
Qed.

Lemma acts_at_block_other c (h : nat -> Z) dim a :
  (forall k, k < dim -> c + k <> a) ->
  acts_at a (map (fun k' => (c + k', h k')) (seq 0 dim)) = 0%Z.
Proof.
  intros H; unfold acts_at; rewrite map_map; apply sumZ_map_zero.
  intros u Hu; apply in_seq in Hu; simpl.
  destruct (c + u =? a) eqn:F; [apply Nat.eqb_eq in F; exfalso; apply (H u); lia|reflexivity].
Qed.

(** *** Threads and segments *)

Section Pieces.
Variable b : nat -> nat.
Hypothesis b_mono : forall t, b t <= b (S t).

Lemma pieces_mono t u : t <= u -> b t <= b u.
Proof.
  intros H; induction H as [|u H IH]; [lia|].
  specialize (b_mono u); lia.
Qed.

(** The segments of threads [0 .. u-1] are consecutive. *)
Lemma pieces_concat u :
  concat (map (fun t => seq (b t) (b (S t) - b t)) (seq 0 u)) =
  seq (b 0) (b u - b 0).
Proof.
  induction u as [|u IH]; [simpl; rewrite Nat.sub_diag; reflexivity|].
  rewrite seq_S, map_app, concat_app, IH; simpl; rewrite app_nil_r.
  assert (H0 : b 0 <= b u) by (apply pieces_mono; lia).
  specialize (b_mono u).
  replace (b (S u) - b 0) with ((b u - b 0) + (b (S u) - b u)) by lia.
  rewrite seq_app; f_equal; f_equal; lia.
Qed.

(** An element lies in exactly one of the segments of [[b 0, b u)]. *)
Lemma pieces_has {A} (L : list A) e u :
  concat (map (fun t => if (b t <=? e) && (e <? b (S t)) then L else [])
    (seq 0 u)) =
  if (b 0 <=? e) && (e <? b u) then L else [].
Proof.
  induction u as [|u IH].
  - simpl; destruct (b 0 <=? e) eqn:E1, (e <? b 0) eqn:E2; simpl; auto.
    apply Nat.leb_le in E1; apply Nat.ltb_lt in E2; lia.
  - rewrite seq_S, map_app, concat_app, IH; simpl; rewrite app_nil_r.
    assert (H0 : b 0 <= b u) by (apply pieces_mono; lia).
    specialize (b_mono u).
    destruct (b 0 <=? e) eqn:E1, (e <? b u) eqn:E2, (b u <=? e) eqn:E3,
      (e <? b (S u)) eqn:E4; simpl; rewrite ?app_nil_r; auto;
      repeat match goal with
      | H : (_ <=? _) = true |- _ => apply Nat.leb_le in H
      | H : (_ <=? _) = false |- _ => apply Nat.leb_gt in H
      | H : (_ <? _) = true |- _ => apply Nat.ltb_lt in H
      | H : (_ <? _) = false |- _ => apply Nat.ltb_ge in H
      end; exfalso; lia.
Qed.
End Pieces.

Lemma seg_b_mono n nt t : seg_b n nt t <= seg_b n nt (S t).
Proof.
  unfold seg_b; apply Nat.add_le_mono_l, Nat.Div0.div_le_mono; nia.
Qed.

Lemma seg_b_0 n nt : seg_b n nt 0 = 0.
Proof. unfold seg_b; rewrite Nat.mul_0_r; destruct nt; reflexivity. Qed.

Lemma seg_b_last n nt : 1 <= nt -> seg_b n nt nt = n.
Proof.
  intros H; unfold seg_b; rewrite Nat.sub_0_r, Nat.div_mul by lia; reflexivity.
Qed.

Lemma concat_map_flat_map {A B} (f : A -> list B) (g : nat -> list A) ts :
  concat (map (fun t => flat_map f (g t)) ts) = flat_map f (concat (map g ts)).
Proof.
  induction ts as [|t ts IH]; simpl; [reflexivity|].
  rewrite flat_map_app, IH; reflexivity.
Qed.

(** The rows of all threads of [Times], in thread order, are the rows
    [0 .. size-1] in order. *)
Lemma times_threads D x dim nt :
  1 <= nt ->
  concat (region nt (times_thread D x dim nt)) =
  flat_map (times_row D x dim) (seq 0 (size D)).
Proof.
  intros Hnt; unfold region, times_thread; simpl.
  change (concat (map (fun t => flat_map (times_row D x dim)
    (seq (seg_b (size D) nt t) (seg_b (size D) nt (S t) - seg_b (size D) nt t)))
    (seq 0 nt)) = flat_map (times_row D x dim) (seq 0 (size D))).
  rewrite concat_map_flat_map, pieces_concat by apply seg_b_mono.
  rewrite seg_b_0, seg_b_last by exact Hnt; rewrite Nat.sub_0_r; reflexivity.
Qed.

Lemma perm_concat_app {A} (f g : nat -> list A) ts :
  Permutation (concat (map (fun t => f t ++ g t) ts))
    (concat (map f ts) ++ concat (map g ts)).
Proof.
  induction ts as [|t ts IH]; simpl; [constructor|].
  rewrite <- !app_assoc; apply Permutation_app_head.
  eapply perm_trans; [apply Permutation_app_head, IH|].
  apply Permutation_app_swap_app.
Qed.

(** Exchanging the thread loop with a loop every thread runs in full. *)
Lemma perm_concat_flat_map {A B} (F : nat -> A -> list B) ts l :
  Permutation (concat (map (fun t => flat_map (F t) l) ts))
    (flat_map (fun u => concat (map (fun t => F t u) ts)) l).
Proof.
  induction l as [|u l IH]; simpl.
  - induction ts; simpl; auto.
  - eapply perm_trans; [apply perm_concat_app|].
    apply Permutation_app_head, IH.
Qed.

Lemma perm_flat_map_ext {A B} (f g : A -> list B) l :
  (forall u, Permutation (f u) (g u)) ->
  Permutation (flat_map f l) (flat_map g l).
Proof.
  intros H; induction l as [|u l IH]; simpl; auto.
  apply Permutation_app; auto.
Qed.

Lemma trans_row_eq D x dim rg i :
  trans_row D x dim rg i =
  flat_map (fun j => if Has rg (N.to_nat (rd_N (index D) j))
                     then trans_nz D x dim i j else []) (row_loop D i).
Proof.
  unfold trans_row, row_loop, trans_nz.
  destruct (rd_nat (offset D) i =? rd_nat (offset D) (S i)); [reflexivity|].
  destruct (value D); reflexivity.
Qed.

Lemma times_row_eq D x dim i :
  times_row D x dim i = flat_map (times_nz D x dim i) (row_loop D i).
Proof.
  unfold times_row, row_loop, times_nz.
  destruct (rd_nat (offset D) i =? rd_nat (offset D) (S i)); [reflexivity|].
  destruct (value D); reflexivity.
Qed.

(** All threads of [TransTimes] together apply, up to order, the updates
    of the nonzeros whose column lies in [[0, y_size/dim)]. *)
Lemma trans_threads D x ys dim nt :
  1 <= nt ->
  Permutation (concat (region nt (trans_thread D x ys dim nt)))
    (flat_map (fun i => flat_map (fun j =>
       if N.to_nat (rd_N (index D) j) <? ys / dim
       then trans_nz D x dim i j else []) (row_loop D i))
     (seq 0 (size D))).
Proof.
  intros Hnt; unfold region, trans_thread.
  eapply perm_trans; [apply perm_concat_flat_map|].
  apply perm_flat_map_ext; intros i.
  setoid_rewrite trans_row_eq.
  eapply perm_trans; [apply perm_concat_flat_map|].
  apply perm_flat_map_ext; intros j.
  change (Permutation (concat (map (fun t =>
    if (seg_b (ys / dim) nt t <=? N.to_nat (rd_N (index D) j)) &&
       (N.to_nat (rd_N (index D) j) <? seg_b (ys / dim) nt (S t))
    then trans_nz D x dim i j else []) (seq 0 nt)))
    (if N.to_nat (rd_N (index D) j) <? ys / dim
     then trans_nz D x dim i j else [])).
  rewrite pieces_has by apply seg_b_mono.
  rewrite seg_b_0, seg_b_last by exact Hnt; reflexivity.
Qed.

(** *** Values computed by the kernel *)

Lemma u32_mul_small e dim m :
  N.to_nat e < m -> (N.of_nat (m * dim) <= 2 ^ 32)%N ->
  u32_mul e dim = N.to_nat e * dim.
Proof.
  intros He Hm; unfold u32_mul.
  change (2 ^ 32)%N with 4294967296%N in *.
  rewrite N.mod_small; [lia|].
  destruct dim as [|dim]; [lia|].
  assert (N.to_nat e * S dim < m * S dim) by nia.
  lia.
Qed.

Lemma row_loop_range D i : row_loop D i = row_range D i.
Proof.
  unfold row_loop, row_range.
  destruct (rd_nat (offset D) i =? rd_nat (offset D) (S i)) eqn:E;
    [apply Nat.eqb_eq in E; rewrite E, Nat.sub_diag|]; reflexivity.
Qed.

Lemma sumZ_flat_map {A} (f : A -> list Z) l :
  sumZ (flat_map f l) = sumZ (map (fun u => sumZ (f u)) l).
Proof.
  induction l as [|u l IH]; simpl; [reflexivity|].
  rewrite sumZ_app, IH; reflexivity.
Qed.

Lemma times_nz_at D x dim i j k :
  k < dim ->
  acts_at (i * dim + k) (times_nz D x dim i j) =
  (nz_val D j * rd_Z x (u32_mul (rd_N (index D) j) dim + k))%Z.
Proof.
  intros Hk; unfold times_nz, nz_val.
  destruct (value D) as [vals|]; rewrite acts_at_block;
    replace (k <? dim) with true by (symmetry; apply Nat.ltb_lt; exact Hk); lia.
Qed.

Lemma times_nz_other D x dim i i' j k :
  i' <> i -> k < dim -> acts_at (i * dim + k) (times_nz D x dim i' j) = 0%Z.
Proof.
  intros Hi Hk; unfold times_nz.
  destruct (value D); apply acts_at_block_other; intros k' Hk' E;
    apply addr_inj in E; lia.
Qed.

(** Each thread of [Times] writes only the row blocks of its segment. *)
Lemma times_thread_owns D x dim nt t a d :
  In (a, d) (times_thread D x dim nt t) ->
  seg_b (size D) nt t * dim <= a < seg_b (size D) nt (S t) * dim.
Proof.
  unfold times_thread; simpl; intros H.
  apply in_flat_map in H as [i [Hi H]]; apply in_seq in Hi.
  rewrite times_row_eq in H; apply in_flat_map in H as [j [_ H]].
  unfold times_nz in H; destruct (value D);
    apply in_map_iff in H as [k [E Hk]]; apply in_seq in Hk;
    injection E as <- _; unfold seg_b in *; simpl in *; nia.
Qed.

(** Each thread of [TransTimes] writes only the row blocks of its
    segment of [[0, y_size/dim)], when no product [e * dim] wraps. *)
Lemma trans_thread_owns D x ys dim nt t a d :
  0 < dim -> t < nt -> (N.of_nat (ys / dim * dim) <= 2 ^ 32)%N ->
  In (a, d) (trans_thread D x ys dim nt t) ->
  seg_b (ys / dim) nt t * dim <= a < seg_b (ys / dim) nt (S t) * dim.
Proof.
  intros Hd Ht Hm; unfold trans_thread; intros H.
  set (m := ys / dim) in *.
  apply in_flat_map in H as [i [_ H]].
  rewrite trans_row_eq in H; apply in_flat_map in H as [j [_ H]].
  destruct (Has (Segment (mkRange 0 m) t nt) (N.to_nat (rd_N (index D) j)))
    eqn:Eh; [|contradiction].
  unfold Has, Segment in Eh; simpl in Eh.
  apply andb_true_iff in Eh as [E1 E2].
  change ((seg_b m nt t <=? N.to_nat (rd_N (index D) j)) = true) in E1.
  change ((N.to_nat (rd_N (index D) j) <? seg_b m nt (S t)) = true) in E2.
  apply Nat.leb_le in E1; apply Nat.ltb_lt in E2.
  assert (Hb : seg_b m nt (S t) <= m).
  { rewrite <- (seg_b_last m nt) at 2 by lia.
    apply pieces_mono; [apply seg_b_mono|lia]. }
  unfold trans_nz in H; rewrite (u32_mul_small _ _ m) in H by (auto; lia).
  destruct (value D);
    apply in_map_iff in H as [k [E Hk]]; apply in_seq in Hk;
    injection E as <- _; nia.
Qed.

(** Element [i*dim+k] after the parallel region of [Times], for any
    number of threads. *)
Lemma Times_priv_nth D x y dim nt i k :
  1 <= nt -> size D * dim <= length y -> i < size D -> k < dim ->
  nth (i * dim + k)
    (region_run nt (times_thread D x dim nt) (memset0 (size D * dim) y)) 0%Z =
  sumZ (map (fun j =>
    (nz_val D j * rd_Z x (u32_mul (rd_N (index D) j) dim + k))%Z)
    (row_range D i)).
Proof.
  intros Hnt Hy Hi Hk.
  assert (Ha : i * dim + k < size D * dim) by nia.
  unfold region_run; rewrite times_threads by exact Hnt.
  unfold memset0; rewrite run_acts_nth by (rewrite set_prefix_length; lia).
  rewrite nth_set_prefix by lia.
  replace (i * dim + k <? size D * dim) with true by (symmetry; apply Nat.ltb_lt; exact Ha).
  rewrite acts_at_flat_map, (sumZ_map_seq_single _ 0 (size D) i) by
    (try lia; intros i' Hi'; rewrite times_row_eq, acts_at_flat_map;
     apply sumZ_map_zero; intros j _; apply times_nz_other; auto).
  rewrite times_row_eq, acts_at_flat_map, row_loop_range; simpl.
  apply sumZ_map_ext; intros j _; apply times_nz_at; exact Hk.
Qed.

Lemma Times_priv_length D x y dim nt :
  length (region_run nt (times_thread D x dim nt) (memset0 (size D * dim) y))
  = length y.
Proof.
  unfold region_run, memset0.
  rewrite run_acts_length, set_prefix_length; reflexivity.
Qed.

Lemma to_int_small n : (Z.of_nat n < 2 ^ 31)%Z -> to_int n = Z.of_nat n.
Proof.
  intros H; unfold to_int; rewrite Z.mod_small by lia.
  replace (Z.of_nat n <? 2 ^ 31)%Z with true by (symmetry; apply Z.ltb_lt; lia).
  reflexivity.
Qed.

(** A region whose thread [t] updates only elements in [[B t, B (t+1))]
    has no race. *)
Lemma race_free_owned (B : nat -> nat) (body : nat -> list Act) s n :
  (forall t, B t <= B (S t)) ->
  (forall t a d, s <= t < s + n -> In (a, d) (body t) -> B t <= a < B (S t)) ->
  race_free (map body (seq s n)) = true.
Proof.
  intros Hm; revert s; induction n as [|n IH]; intros s Ho; [reflexivity|].
  simpl; apply andb_true_iff; split;
    [|apply IH; intros t a d Ht; apply Ho; lia].
  apply forallb_forall; intros [a d] Had.
  apply forallb_forall; intros l Hl; apply in_map_iff in Hl as [t [<- Ht]].
  apply in_seq in Ht.
  apply negb_true_iff, not_true_iff_false; intros Hex.
  apply existsb_exists in Hex as [[a' d'] [Had' E]]; simpl in E.
  apply Nat.eqb_eq in E; subst a'.
  pose proof (Ho s a d ltac:(lia) Had) as H1.
  pose proof (Ho t a d' ltac:(lia) Had') as H2.
  pose proof (pieces_mono B Hm (S s) t ltac:(lia)); lia.
Qed.



Lemma Times_priv_some D x y dim nt :
  Times_priv D x y (Z.of_nat dim) nt =
  Some (region_run nt (times_thread D x dim nt) (memset0 (size D * dim) y)).
Proof.
  unfold Times_priv, region_exec.
  replace (Z.of_nat dim <? 0)%Z with false by (symmetry; apply Z.ltb_ge; lia).
  rewrite Nat2Z.id.
  replace (race_free (region nt (times_thread D x dim nt))) with true;
    [reflexivity|symmetry].
  unfold region; apply (race_free_owned (fun t => seg_b (size D) nt t * dim)).
  - intros t; apply Nat.mul_le_mono_r, seg_b_mono.
  - intros t a d _ H; apply times_thread_owns in H; exact H.
Qed.

Lemma Times_unfold D x y nt :
  x <> [] -> 0 < size D -> (Z.of_nat (length y / size D) < 2 ^ 31)%Z ->
  Times D x y nt =
  Some (region_run nt (times_thread D x (length y / size D) nt)
          (memset0 (size D * (length y / size D)) y)).
Proof.
  intros Hx Hn Hq; destruct x as [|x0 xs]; [contradiction|].
  change (Times D (x0 :: xs) y nt) with (if size D =? 0 then None
    else Times_priv D (x0 :: xs) y (to_int (length y / size D)) nt).
  replace (size D =? 0) with false by (symmetry; apply Nat.eqb_neq; lia).
  rewrite to_int_small by exact Hq; apply Times_priv_some.
Qed.

Lemma TransTimesBias_unfold D x p z y nt :
  x <> [] ->
  TransTimesBias D x p z y nt =
  if size D =? 0 then None
  else if (length z =? length y) && negb (p =? 0)%Z
  then TransTimes_priv D x (Some z) p y (length y)
         (to_int (length x / size D)) nt
  else TransTimes_priv D x None 0 y (length y)
         (to_int (length x / size D)) nt.
Proof. destruct x; [contradiction|reflexivity]. Qed.

(** One nonzero of [TransTimes] seen from element [e*dim+k]. *)
Lemma trans_nz_at D x dim i j e k m :
  0 < dim -> e < m -> k < dim -> (N.of_nat (m * dim) <= 2 ^ 32)%N ->
  acts_at (e * dim + k)
    (if N.to_nat (rd_N (index D) j) <? m then trans_nz D x dim i j else []) =
  if N.to_nat (rd_N (index D) j) =? e
  then (nz_val D j * rd_Z x (i * dim + k))%Z else 0%Z.
Proof.
  intros Hd He Hk Hm.
  destruct (N.to_nat (rd_N (index D) j) <? m) eqn:Em.
  - apply Nat.ltb_lt in Em.
    unfold trans_nz, nz_val; rewrite (u32_mul_small _ _ m Em Hm).
    destruct (N.to_nat (rd_N (index D) j) =? e) eqn:Ee.
    + apply Nat.eqb_eq in Ee; rewrite Ee.
      destruct (value D); rewrite acts_at_block;
        replace (k <? dim) with true by (symmetry; apply Nat.ltb_lt; exact Hk); lia.
    + apply Nat.eqb_neq in Ee.
      destruct (value D); apply acts_at_block_other; intros k' Hk' E;
        apply addr_inj in E; lia.
  - apply Nat.ltb_ge in Em.
    replace (N.to_nat (rd_N (index D) j) =? e) with false
      by (symmetry; apply Nat.eqb_neq; lia).
    reflexivity.
Qed.

(** Element [e*dim+k] after the parallel region of [TransTimes]. *)
Lemma trans_region_nth D x y0 ys dim nt e k m :
  1 <= nt -> 0 < dim -> ys = m * dim -> length y0 = ys ->
  (N.of_nat (m * dim) <= 2 ^ 32)%N -> e < m -> k < dim ->
  nth (e * dim + k) (region_run nt (trans_thread D x ys dim nt) y0) 0%Z =
  (nth (e * dim + k) y0 0 + col_dot D x dim e k)%Z.
Proof.
  intros Hnt Hd Hys Hl Hm He Hk.
  unfold region_run.
  rewrite (run_acts_perm _ _ _ (trans_threads D x ys dim nt Hnt)).
  rewrite run_acts_nth by (rewrite Hl, Hys; nia).
  f_equal.
  replace (ys / dim) with m by (rewrite Hys, Nat.div_mul by lia; reflexivity).
  unfold col_dot; rewrite acts_at_flat_map, sumZ_flat_map.
  apply sumZ_map_ext; intros i _.
  rewrite acts_at_flat_map, row_loop_range.
  apply sumZ_map_ext; intros j _.
  apply trans_nz_at; assumption.
Qed.

Lemma trans_fill_length zo p ys y : length (trans_fill zo p ys y) = length y.
Proof. destruct zo; apply set_prefix_length. Qed.

Lemma trans_race_free D x ys dim nt :
  0 < dim -> (N.of_nat (ys / dim * dim) <= 2 ^ 32)%N ->
  race_free (region nt (trans_thread D x ys dim nt)) = true.
Proof.
  intros Hd Hm; unfold region.
  apply (race_free_owned (fun t => seg_b (ys / dim) nt t * dim)).
  - intros t; apply Nat.mul_le_mono_r, seg_b_mono.
  - intros t a d Ht H; apply (trans_thread_owns D x ys dim nt t a d); auto; lia.
Qed.


Lemma TransTimes_priv_pos D x zo p y ys dim nt :
  0 < dim -> (N.of_nat (ys / dim * dim) <= 2 ^ 32)%N ->
  TransTimes_priv D x zo p y ys (Z.of_nat dim) nt =
  Some (region_run nt (trans_thread D x ys dim nt) (trans_fill zo p ys y)).
Proof.
  intros Hd Hm; unfold TransTimes_priv, region_exec.
  replace (Z.of_nat dim =? 0)%Z with false by (symmetry; apply Z.eqb_neq; lia).
  replace (Z.of_nat dim <? 0)%Z with false by (symmetry; apply Z.ltb_ge; lia).
  rewrite Nat2Z.id, trans_race_free by assumption; reflexivity.
Qed.

(** The public biased [TransTimes] on well-shaped, non-empty input. *)
Lemma TransTimesBias_spec D x p z y m dim nt :
  x <> [] -> 0 < size D -> 1 <= nt ->
  length x = size D * dim -> length y = m * dim ->
  (N.of_nat (m * dim) <= 2 ^ 32)%N -> (Z.of_nat dim < 2 ^ 31)%Z ->
  exists y', TransTimesBias D x p z y nt = Some y' /\
    length y' = length y /\
    forall e k, e < m -> k < dim ->
      nth (e * dim + k) y' 0%Z =
      ((if Nat.eqb (length z) (length y) && negb (Z.eqb p 0)
        then rd_Z z (e * dim + k) * p else 0) + col_dot D x dim e k)%Z.
Proof.
  intros Hx Hn Hnt Hlx Hly Hm Hd31.
  assert (Hd : 0 < dim).
  { destruct dim; [|lia]. destruct x; [contradiction|]. simpl in Hlx; lia. }
  rewrite TransTimesBias_unfold by exact Hx.
  replace (size D =? 0) with false by (symmetry; apply Nat.eqb_neq; lia).
  replace (length x / size D) with dim
    by (rewrite Hlx, Nat.mul_comm, Nat.div_mul by lia; reflexivity).
  rewrite to_int_small by exact Hd31.
  assert (Hb : (N.of_nat (length y / dim * dim) <= 2 ^ 32)%N)
    by (rewrite Hly, Nat.div_mul by lia; exact Hm).
  rewrite !TransTimes_priv_pos by assumption.
  destruct ((length z =? length y) && negb (p =? 0)%Z) eqn:Ec;
    (eexists; split; [reflexivity|]; split;
     [unfold region_run; rewrite run_acts_length, trans_fill_length; reflexivity|]);
    intros e k He Hk;
    (rewrite (trans_region_nth D x _ (length y) dim nt e k m); auto;
     [|rewrite trans_fill_length; reflexivity]);
    unfold trans_fill, memset0; rewrite nth_set_prefix by nia;
    replace (e * dim + k <? length y) with true by (symmetry; apply Nat.ltb_lt; nia);
    reflexivity.
Qed.

Lemma index_below_spec D m i j :
  index_below D m = true -> i < size D -> In j (row_range D i) ->
  N.to_nat (rd_N (index D) j) < m.
Proof.
  intros H Hi Hj; unfold index_below in H; rewrite forallb_forall in H.
  specialize (H i); rewrite in_seq in H.
  specialize (H (conj (Nat.le_0_l i) Hi)); rewrite forallb_forall in H.
  apply Nat.ltb_lt, H, Hj.
Qed.






(** ** Claims about the SpMM kernel *)

(** C1 (amended). For a matrix with at least one row and a non-empty
    input [x] of shape [m x dim] whose column indices are below [m]
    (with [m * dim <= 2^32], so no unsigned product wraps, and
    [dim < 2^31], so the [int dim] of the code is [dim]), [Times] with
    an output of shape [size x dim] returns, at [i*dim+k], the sum over
    the nonzeros [j] of row [i] of [value[j] * x[index[j]*dim+k]]
    ([value[j] = 1] without values); empty rows give 0. With an empty
    [x] the output is left unchanged (see C6). *)
Theorem Times_correct (D : SpMat) (x y : list Z) (m dim nt : nat) :
  x <> [] -> 0 < size D -> 1 <= nt ->
  length x = m * dim -> length y = size D * dim ->
  index_below D m = true -> (N.of_nat (m * dim) <= 2 ^ 32)%N ->
  (Z.of_nat dim < 2 ^ 31)%Z ->
  exists y', Times D x y nt = Some y' /\ length y' = length y /\
    forall i k, i < size D -> k < dim ->
      nth (i * dim + k) y' 0%Z = row_dot D x dim i k.
Proof.
  intros Hx Hn Hnt Hlx Hly Hidx Hm Hd31.
  assert (Hq : length y / size D = dim)
    by (rewrite Hly, Nat.mul_comm, Nat.div_mul by lia; reflexivity).
  rewrite Times_unfold by (auto; rewrite Hq; exact Hd31).
  rewrite Hq.
  eexists; split; [reflexivity|]; split; [apply Times_priv_length|].
  intros i k Hi Hk.
  rewrite Times_priv_nth by (auto; lia).
  unfold row_dot; apply sumZ_map_ext; intros j Hj.
  rewrite (u32_mul_small _ _ m); [reflexivity| |exact Hm].
  apply (index_below_spec D m i j); assumption.
Qed.

Lemma Times_correct_witness :
  Times exD [5; 7]%Z [0; 0; 0]%Z 4 = Some [5; 31; 0]%Z /\
  exists y', Times exD [5; 7]%Z [0; 0; 0]%Z 4 = Some y' /\ length y' = 3 /\
    forall i k, i < 3 -> k < 1 -> nth (i * 1 + k) y' 0%Z =
      row_dot exD [5; 7]%Z 1 i k.
Proof.
  split; [vm_compute; reflexivity|].
  apply (Times_correct exD [5; 7]%Z [0; 0; 0]%Z 2 1 4);
    [discriminate | simpl; lia | lia | reflexivity | reflexivity
    | vm_compute; reflexivity | vm_compute; discriminate | lia].
Defined.

(** C1 as stated fails: an empty [x] (a matrix with no columns) leaves a
    non-zero output as it was, and a matrix with no rows crashes on the
    division [y->size() / D.size]. *)
Lemma Times_correct_counterexample :
  ~ (forall (D : SpMat) (x y : list Z) (m dim nt : nat),
       1 <= nt -> length x = m * dim -> length y = size D * dim ->
       index_below D m = true -> (N.of_nat (m * dim) <= 2 ^ 32)%N ->
       exists y', Times D x y nt = Some y' /\
         forall i k, i < size D -> k < dim ->
           nth (i * dim + k) y' 0%Z = row_dot D x dim i k) /\
  Times (mkSpMat 0 [0] [] None) [1]%Z [] 1 = None.
Proof.
  split; [|reflexivity].
  intros H.
  specialize (H (mkSpMat 1 [0; 0] [] None) [] [7]%Z 0 1 1).
  destruct H as [y' [E Hy']]; [lia | reflexivity | reflexivity
    | reflexivity | vm_compute; discriminate |].
  simpl in E; injection E as <-.
  specialize (Hy' 0 0 ltac:(simpl; lia) ltac:(lia)); vm_compute in Hy'; discriminate.
Qed.

(** C2 (amended). For a matrix with at least one row, a non-empty [x] of
    shape [size x dim] ([dim < 2^31], so the [int dim] of the code is
    [dim]) and [y] of shape [m x dim] ([m * dim <= 2^32]):
    the biased [TransTimes] with [z] of the shape of [y] returns
    [D' x + p z]; with [z] absent or [p = 0] it returns [D' x]; and the
    two-argument [TransTimes] returns [D' x]. With an empty [x] the
    output is left unchanged (see C6). *)
Theorem TransTimes_correct (D : SpMat) (x z y : list Z) (p : Z)
  (m dim nt : nat) :
  x <> [] -> 0 < size D -> 1 <= nt ->
  length x = size D * dim -> length y = m * dim ->
  (N.of_nat (m * dim) <= 2 ^ 32)%N -> (Z.of_nat dim < 2 ^ 31)%Z ->
  (length z = length y ->
   exists y', TransTimesBias D x p z y nt = Some y' /\
     forall e k, e < m -> k < dim ->
       nth (e * dim + k) y' 0%Z =
       (col_dot D x dim e k + p * rd_Z z (e * dim + k))%Z) /\
  (exists y', TransTimesBias D x p [] y nt = Some y' /\
     forall e k, e < m -> k < dim ->
       nth (e * dim + k) y' 0%Z = col_dot D x dim e k) /\
  (exists y', TransTimesBias D x 0 z y nt = Some y' /\
     forall e k, e < m -> k < dim ->
       nth (e * dim + k) y' 0%Z = col_dot D x dim e k) /\
  (exists y', TransTimes D x y nt = Some y' /\
     forall e k, e < m -> k < dim ->
       nth (e * dim + k) y' 0%Z = col_dot D x dim e k).
Proof.
  intros Hx Hn Hnt Hlx Hly Hm Hd31.
  split; [|split; [|split]].
  - intros Hz.
    destruct (TransTimesBias_spec D x p z y m dim nt Hx Hn Hnt Hlx Hly Hm Hd31)
      as [y' [E [_ H]]].
    exists y'; split; [exact E|]; intros e k He Hk; rewrite H by assumption.
    rewrite Hz, Nat.eqb_refl; simpl.
    destruct (Z.eqb p 0) eqn:Ep; simpl; [apply Z.eqb_eq in Ep; subst p|]; lia.
  - destruct (TransTimesBias_spec D x p [] y m dim nt Hx Hn Hnt Hlx Hly Hm Hd31)
      as [y' [E [_ H]]].
    exists y'; split; [exact E|]; intros e k He Hk; rewrite H by assumption.
    destruct (_ && _); unfold rd_Z; simpl; [destruct (e * dim + k)|]; lia.
  - destruct (TransTimesBias_spec D x 0 z y m dim nt Hx Hn Hnt Hlx Hly Hm Hd31)
      as [y' [E [_ H]]].
    exists y'; split; [exact E|]; intros e k He Hk; rewrite H by assumption.
    rewrite andb_false_r; lia.
  - destruct (TransTimesBias_spec D x 0 [] y m dim nt Hx Hn Hnt Hlx Hly Hm Hd31)
      as [y' [E [_ H]]].
    exists y'; split; [exact E|]; intros e k He Hk; rewrite H by assumption.
    rewrite andb_false_r; lia.
Qed.

Lemma TransTimes_correct_witness :
  TransTimes exD [1; 1; 0]%Z [0; 0]%Z 4 = Some [3; 3]%Z /\
  exists y', TransTimes exD [1; 1; 0]%Z [0; 0]%Z 4 = Some y' /\
    forall e k, e < 2 -> k < 1 ->
      nth (e * 1 + k) y' 0%Z = col_dot exD [1; 1; 0]%Z 1 e k.
Proof.
  split; [vm_compute; reflexivity|].
  refine (proj2 (proj2 (proj2 (TransTimes_correct exD [1; 1; 0]%Z
    [1; 10]%Z [0; 0]%Z 2 2 1 4 _ _ _ _ _ _ _)))).
  - discriminate.
  - simpl; lia.
  - lia.
  - reflexivity.
  - reflexivity.
  - vm_compute; discriminate.
  - lia.
Defined.

(** C2 as stated fails: for a matrix with no rows, [x] is empty and the
    output is left as it was instead of being set to [p z]. *)
Lemma TransTimes_correct_counterexample :
  ~ (forall (D : SpMat) (x z y : list Z) (p : Z) (m dim nt : nat),
       1 <= nt -> length x = size D * dim -> length y = m * dim ->
       length z = length y -> (N.of_nat (m * dim) <= 2 ^ 32)%N ->
       exists y', TransTimesBias D x p z y nt = Some y' /\
         forall e k, e < m -> k < dim ->
           nth (e * dim + k) y' 0%Z =
           (col_dot D x dim e k + p * rd_Z z (e * dim + k))%Z).
Proof.
  intros H.
  specialize (H (mkSpMat 0 [0] [] None) [] [1]%Z [0]%Z 1%Z 1 1 1).
  destruct H as [y' [E Hy']]; [lia | reflexivity | reflexivity
    | reflexivity | vm_compute; discriminate |].
  simpl in E; injection E as <-.
  specialize (Hy' 0 0 ltac:(lia) ltac:(lia)); vm_compute in Hy'; discriminate.
Qed.

(** C6. With an empty input [x], [Times] and both forms of [TransTimes]
    return at once and leave every element of [y] as it was. *)
Theorem SpMM_empty_input_noop (D : SpMat) (y z : list Z) (p : Z) (nt : nat) :
  Times D [] y nt = Some y /\ TransTimes D [] y nt = Some y /\
  TransTimesBias D [] p z y nt = Some y.
Proof. repeat split. Qed.




(** C9 (amended). For a matrix with at least one row, a non-empty [x] of
    shape [size x dim] ([dim < 2^31]) and [y] of shape [m x dim]
    ([m * dim <= 2^32]),
    the biased [TransTimes] returns without error [z * p + D' x] when
    [z.size() == y.size()] and [p <> 0], and [D' x] otherwise: then [z] is
    ignored and the result is that of the two-argument [TransTimes]. *)
Theorem TransTimesBias_gate (D : SpMat) (x z y : list Z) (p : Z)
  (m dim nt : nat) :
  x <> [] -> 0 < size D -> 1 <= nt ->
  length x = size D * dim -> length y = m * dim ->
  (N.of_nat (m * dim) <= 2 ^ 32)%N -> (Z.of_nat dim < 2 ^ 31)%Z ->
  (exists y', TransTimesBias D x p z y nt = Some y' /\
     forall e k, e < m -> k < dim ->
       nth (e * dim + k) y' 0%Z =
       ((if Nat.eqb (length z) (length y) && negb (Z.eqb p 0)
         then rd_Z z (e * dim + k) * p else 0) + col_dot D x dim e k)%Z) /\
  (Nat.eqb (length z) (length y) && negb (Z.eqb p 0) = false ->
   TransTimesBias D x p z y nt = TransTimes D x y nt).
Proof.
  intros Hx Hn Hnt Hlx Hly Hm Hd31; split.
  - destruct (TransTimesBias_spec D x p z y m dim nt Hx Hn Hnt Hlx Hly Hm Hd31)
      as [y' [E [_ H]]].
    exists y'; split; [exact E|exact H].
  - intros Hc; unfold TransTimes.
    rewrite !TransTimesBias_unfold by exact Hx.
    rewrite Hc, andb_false_r; reflexivity.
Qed.

Lemma TransTimesBias_gate_witness :
  TransTimesBias exD [1; 1; 0]%Z 2 [1; 10]%Z [0; 0]%Z 4 = Some [5; 23]%Z /\
  TransTimesBias exD [1; 1; 0]%Z 2 [1]%Z [0; 0]%Z 4 =
  TransTimes exD [1; 1; 0]%Z [0; 0]%Z 4.
Proof.
  split; [vm_compute; reflexivity|].
  apply (proj2 (TransTimesBias_gate exD [1; 1; 0]%Z [1]%Z [0; 0]%Z 2 2 1 4
    ltac:(discriminate) ltac:(simpl; lia) ltac:(lia) eq_refl eq_refl
    ltac:(vm_compute; discriminate) ltac:(lia))).
  reflexivity.
Defined.

(** C9 as stated fails on an empty [x]: the bias is not applied although
    [z.size() == y.size()] and [p <> 0]. *)
Lemma TransTimesBias_gate_counterexample :
  ~ (forall (D : SpMat) (x z y : list Z) (p : Z) (m dim nt : nat),
       1 <= nt -> length x = size D * dim -> length y = m * dim ->
       (N.of_nat (m * dim) <= 2 ^ 32)%N ->
       exists y', TransTimesBias D x p z y nt = Some y' /\
         forall e k, e < m -> k < dim ->
           nth (e * dim + k) y' 0%Z =
           ((if Nat.eqb (length z) (length y) && negb (Z.eqb p 0)
             then rd_Z z (e * dim + k) * p else 0) + col_dot D x dim e k)%Z).
Proof.
  intros H.
  specialize (H (mkSpMat 0 [0] [] None) [] [2]%Z [0]%Z 1%Z 1 1 1).
  destruct H as [y' [E Hy']]; [lia | reflexivity | reflexivity
    | vm_compute; discriminate |].
  simpl in E; injection E as <-.
  specialize (Hy' 0 0 ltac:(lia) ltac:(lia)); vm_compute in Hy'; discriminate.
Qed.

End SpMMFacts.

(** ** Facts about [ProcessFile] *)
Module PipelineFacts.
Import JobDefs Pipeline.

Section Facts.
Variable job : Job.

Lemma store_done_pc op s : pc (store_done job op s) = pc s.
Proof.
  destruct op; simpl; unfold pull_callback, on_complete;
    try destruct (JobType_eqb _ _); reflexivity.
Qed.

Lemma store_done_remains op s :
  remains (store_done job op s) =
  match op with
  | OpPushFeaCount _ => remains s
  | OpPullWeight _ => if is_training job then remains s else remains s - 1
  | OpPushGradient _ => remains s - 1
  end.
Proof.
  destruct op; simpl; unfold pull_callback, on_complete, is_training;
    try destruct (JobType_eqb _ _); reflexivity.
Qed.




(** **** Draining *)

Ltac pick := first [ assumption | congruence | (left; pick) | (right; pick) ].
Ltac peel H := repeat (destruct H as [H|H]; [discriminate|]).

Lemma filter_batch_remove l1 op l2 :
  length (filter batch_op (l1 ++ op :: l2)) =
  length (filter batch_op (l1 ++ l2)) + (if batch_op op then 1 else 0).
Proof.
  rewrite !filter_app, !length_app; simpl.
  destruct (batch_op op); simpl; lia.
Qed.

Lemma in_remove_other {A} (x op : A) l1 l2 :
  In x (l1 ++ op :: l2) -> x <> op -> In x (l1 ++ l2).
Proof.
  rewrite !in_app_iff; simpl; intros [H|[H|H]] Hne; auto; congruence.
Qed.

Lemma cag_prefix pre tr :
  (forall b, ~ In (EComplete b) pre) ->
  complete_after_gradient (pre ++ tr) = complete_after_gradient tr.
Proof.
  induction pre as [|e pre IH]; intros H; [reflexivity|].
  simpl app; rewrite <- IH by (intros b Hb; apply (H b); right; exact Hb).
  destruct e; try reflexivity.
  exfalso; apply (H b); left; reflexivity.
Qed.

(** Steps that only add events other than [EAdd] and [EComplete] and
    leave the in-flight batch operations as they were. *)
Lemma inv_drain_mono s s' pre :
  remains s' = remains s ->
  filter batch_op (pending s') = filter batch_op (pending s) ->
  (forall x, In x (pending s) -> In x (pending s')) ->
  trace s' = pre ++ trace s ->
  (forall b, ~ In (EAdd b) pre /\ ~ In (EComplete b) pre) ->
  inv_drain job s -> inv_drain job s'.
Proof.
  intros Hr Hf Hp Ht Hpre [I1 [I2 [I3 I4]]].
  assert (Hin : forall e, In e (trace s) -> In e (trace s'))
    by (intros e He; rewrite Ht; apply in_or_app; right; exact He).
  assert (Hadd : forall b, In (EAdd b) (trace s') -> In (EAdd b) (trace s)).
  { intros b Hb; rewrite Ht in Hb; apply in_app_or in Hb as [Hb|Hb]; auto.
    exfalso; apply (proj1 (Hpre b)), Hb. }
  split; [|split; [|split]].
  - rewrite Hr, Hf; exact I1.
  - intros b Hb; destruct (I2 b (Hadd b Hb)) as [H|[H|H]]; auto.
  - intros Ht0 b Hb; destruct (I3 Ht0 b (Hadd b Hb)) as [H|[H|H]]; auto.
  - intros Ht0; rewrite Ht, cag_prefix by (intros b; apply Hpre); auto.
Qed.

Lemma reach_drain n s :
  reachable job n s -> inv_drain job s.
Proof.
  induction 1 as [|s s' Hr IH Hs].
  - split; [reflexivity|split; [|split]]; simpl; auto; contradiction.
  - destruct Hs as
      [s u Hpc Hu|s Hpc Hu|s b Hpc Hn|s b Hpc Hle|s b Hpc|s Hpc Hr0|s l1 op l2 Hp].
    + destruct (push_cnt job).
      * apply (inv_drain_mono s _ [EPushFeaCount (next_id s); ECompact (next_id s) true]);
          simpl; auto.
        intros b0; split; intros [H|[H|[]]]; discriminate.
      * apply (inv_drain_mono s _ [ECompact (next_id s) false]); simpl; auto.
        intros b0; split; intros [H|[]]; discriminate.
    + apply (inv_drain_mono s _ []); simpl; auto.
    + apply (inv_drain_mono s _ []); simpl; auto.
    + apply (inv_drain_mono s _ []); simpl; auto.
    + destruct IH as [I1 [I2 [I3 I4]]].
      split; [|split; [|split]]; simpl.
      * rewrite I1; reflexivity.
      * intros b' [H|[H|H]]; [discriminate| |].
        -- injection H as <-; left; left; reflexivity.
        -- destruct (I2 b' H) as [H'|[H'|H']]; auto 6.
      * intros Ht b' [H|[H|H]]; [discriminate| |].
        -- injection H as <-; left; left; reflexivity.
        -- destruct (I3 Ht b' H) as [H'|[H'|H']]; auto 6.
      * intros Ht; apply I4, Ht.
    + apply (inv_drain_mono s _ [EReturn]); simpl; auto.
      intros b; split; intros [H|[]]; discriminate.
    + destruct IH as [I1 [I2 [I3 I4]]].
      pose proof (filter_batch_remove l1 op l2) as Hf.
      rewrite <- Hp, <- I1 in Hf.
      unfold inv_drain.
      destruct op as [b|b|b]; unfold store_done, pull_callback, on_complete;
        fold (is_training job);
        [destruct (is_training job) eqn:Etr in *| |];
        unfold issue, emit, set_pending, set_remains in *; cbn in *;
        (split; [lia|split; [|split]]);
        [ (intros b' H) | (intros Ht b' H) | (intros Ht) 
        | (intros b' H) | (intros Ht b' H) | (intros Ht)
        | (intros b' H) | (intros Ht b' H) | (intros Ht)
        | (intros b' H) | (intros Ht b' H) | (intros Ht) ];
        try discriminate Ht;
        try (rewrite ?Nat.eqb_refl; apply I4;
             first [reflexivity | exact Ht]);
        peel H;
        [ destruct (I2 b' H) as [H'|[H'|H']]
        | destruct (I3 ltac:(first [reflexivity | exact Ht]) b' H) as [H'|[H'|H']]
        | destruct (I2 b' H) as [H'|[H'|H']]
        | destruct (I2 b' H) as [H'|[H'|H']]
        | destruct (I3 ltac:(first [reflexivity | exact Ht]) b' H) as [H'|[H'|H']]
        | destruct (I2 b' H) as [H'|[H'|H']]
        | destruct (I3 ltac:(first [reflexivity | exact Ht]) b' H) as [H'|[H'|H']] ];
        try (rewrite Hp, in_app_iff in H'; cbn in H'; destruct H' as [H'|[H'|H']]);
        rewrite ?in_app_iff; pick.
Qed.

(** **** Feature counts *)

Lemma before_cons e1 e2 e tr :
  before e1 e2 tr -> (e = e2 -> In e1 tr) -> before e1 e2 (e :: tr).
Proof.
  intros H He [|e' l1] l2 E; simpl in E; injection E as E1 E2.
  - subst; apply He; reflexivity.
  - apply (H l1 l2 E2).
Qed.

Ltac before_step :=
  repeat (apply before_cons; [|intros E; discriminate E]).

Lemma reach_feacount n s :
  reachable job n s -> inv_feacount job s.
Proof.
  induction 1 as [|s s' Hr IH Hs].
  - split; [|split; [|split]]; simpl; try contradiction.
    + intros _ b; split; intros [|e l1] l2 E; discriminate.
    + intros _ b E; discriminate.
    + intros _ b [E|E]; discriminate.
  - destruct IH as [I1 [I2 [I3 I4]]].
    unfold inv_feacount.
    destruct Hs as
      [s u Hpc Hu|s Hpc Hu|s b Hpc Hn|s b Hpc Hle|s b Hpc|s Hpc Hr0|s l1 op l2 Hp].
    + destruct (push_cnt job) eqn:Epc;
        unfold set_pc, issue, emit; cbn;
        (split; [|split; [|split]]).
      * intros b' c [E|[E|H]]; [discriminate| |exact (I1 b' c H)].
        injection E as _ <-; reflexivity.
      * intros Ht b'; destruct (I2 Ht b') as [Ha Hp]; split; before_step; auto.
      * intros _ b' E; injection E as <-; left; left; reflexivity.
      * intros _ b' [E|E]; discriminate.
      * intros b' c [E|H]; [injection E as _ <-; reflexivity|exact (I1 b' c H)].
      * intros Ht b'; destruct (I2 Ht b') as [Ha Hp]; split; before_step; auto.
      * intros Ht; discriminate Ht.
      * intros Ht; discriminate Ht.
    + unfold set_pc; cbn; split; [exact I1|split; [exact I2|split]];
        intros _ b' E; [discriminate|destruct E; discriminate].
    + unfold set_pc; cbn; split; [exact I1|split; [exact I2|split]].
      * intros _ b' E; discriminate.
      * intros Ht b' [E|E]; [|discriminate]; injection E as <-.
        destruct (I3 Ht b Hpc) as [H|H]; [contradiction|exact H].
    + unfold set_pc; cbn; split; [exact I1|split; [exact I2|split]].
      * intros _ b' E; discriminate.
      * intros Ht b' [E|E]; [discriminate|]; injection E as <-.
        apply (I4 Ht b); left; exact Hpc.
    + unfold tracker_add, consumer, set_pc, issue, emit, set_remains; cbn.
      split; [|split; [|split]].
      * intros b' c [E|[E|H]]; try discriminate; exact (I1 b' c H).
      * intros Ht b'; destruct (I2 Ht b') as [Ha Hp].
        assert (Hb : b' = b -> In (EFeaCountDone b') (trace s))
          by (intros ->; apply (I4 Ht b); right; exact Hpc).
        split.
        -- apply before_cons; [|intros E; discriminate E].
           apply before_cons; [exact Ha|].
           intros E; injection E as E; apply Hb; symmetry; exact E.
        -- apply before_cons.
           ++ apply before_cons; [exact Hp|intros E; discriminate E].
           ++ intros E; injection E as E; right; apply Hb; symmetry; exact E.
      * intros _ b' E; discriminate.
      * intros _ b' [E|E]; discriminate.
    + unfold set_pc, emit; cbn; split; [|split; [|split]].
      * intros b' c [E|H]; [discriminate|exact (I1 b' c H)].
      * intros Ht b'; destruct (I2 Ht b') as [Ha Hp]; split; before_step; auto.
      * intros _ b' E; discriminate.
      * intros _ b' [E|E]; discriminate.
    + destruct op as [b|b|b]; unfold store_done, pull_callback, on_complete;
        [destruct (JobType_eqb (type job) kTraining)| |];
        unfold issue, emit, set_pending, set_remains in *; cbn in *;
        (split; [|split; [|split]]);
        try (intros b' c H; peel H; exact (I1 b' c H));
        try (intros Ht b'; destruct (I2 Ht b') as [Ha Hb]; split; before_step; auto);
        try (intros Ht b' Hw; destruct (I3 Ht b' Hw) as [H|H];
             [rewrite Hp, in_app_iff in H; cbn in H; destruct H as [H|[H|H]]|];
             rewrite ?in_app_iff; pick);
        try (intros Ht b' Hw; right; right; try right; apply (I4 Ht b' Hw));
        try (intros Ht b' Hw; right; apply (I4 Ht b' Hw)).
Qed.

Lemma reach_done n s :
  reachable job n s -> pc s = PDone -> remains s = 0.
Proof.
  induction 1 as [|s s' Hr IH Hs]; [discriminate|].
  destruct Hs as
    [s u Hpc Hu|s Hpc Hu|s b Hpc Hn|s b Hpc Hle|s b Hpc|s Hpc Hr0|s l1 op l2 Hp];
    intros Hd; try (destruct (push_cnt job); discriminate Hd);
    try discriminate Hd.
  - exact Hr0.
  - rewrite store_done_pc in Hd; simpl in Hd.
    specialize (IH Hd).
    destruct (reach_drain n s Hr) as [I1 _].
    pose proof (filter_batch_remove l1 op l2) as Hf.
    rewrite <- Hp, <- I1, IH in Hf.
    rewrite store_done_remains; simpl.
    destruct op; simpl in Hf; [lia|lia|exact IH].
Qed.

End Facts.

(** Take one step from the state of a concrete run. *)
Ltac run_step R tac :=
  match type of R with
  | reachable ?j ?n ?s =>
      let Hs := fresh "Hs" in
      eassert (Hs : step j s _) by tac;
      let R' := fresh "R" in
      pose proof (ReachStep j n s _ R Hs) as R'; clear R Hs; vm_compute in R'
  end.

(** A run of [ProcessFile] on [train_job0] with one batch, to the end. *)
Lemma train_job0_run :
  exists s, reachable train_job0 1 s /\ pc s = PDone /\
    In (EAdd 0) (trace s).
Proof.
  pose proof (ReachInit train_job0 1) as R.
  run_step R ltac:(eapply StepRead; reflexivity).
  run_step R0 ltac:(eapply (StepStore _ _ []); reflexivity).
  run_step R ltac:(eapply StepWaitCnt; [reflexivity|simpl; tauto]).
  run_step R0 ltac:(eapply StepThrottle; [reflexivity|simpl; lia]).
  run_step R ltac:(eapply StepAdd; reflexivity).
  run_step R0 ltac:(eapply (StepStore _ _ []); reflexivity).
  run_step R ltac:(eapply (StepStore _ _ []); reflexivity).
  run_step R0 ltac:(eapply StepReadEnd; reflexivity).
  run_step R ltac:(eapply StepDrain; reflexivity).
  eexists; split; [exact R0|split; [reflexivity|simpl; tauto]].
Qed.

(** ** Claims about [ProcessFile] *)

(** C3. Once [ProcessFile] has returned (after the reader is exhausted
    and the outstanding count reached zero), no weight pull or gradient
    push of any batch is in flight and every batch enqueued has
    completed; for a training job, every [on_complete] directly follows
    the completion of the batch's gradient push, and every batch's
    gradient push has completed. *)
Theorem ProcessFile_drains (job : Job) (n : nat) (s : PState) :
  reachable job n s -> pc s = PDone ->
  remains s = 0 /\
  (forall b, ~ In (OpPullWeight b) (pending s) /\
             ~ In (OpPushGradient b) (pending s)) /\
  (forall b, In (EAdd b) (trace s) -> In (EComplete b) (trace s)) /\
  (type job = kTraining ->
   complete_after_gradient (trace s) = true /\
   forall b, In (EAdd b) (trace s) -> In (EGradientDone b) (trace s)).
Proof.
  intros Hr Hd.
  pose proof (reach_done job n s Hr Hd) as H0.
  destruct (reach_drain job n s Hr) as [I1 [I2 [I3 I4]]].
  rewrite H0 in I1; symmetry in I1; apply length_zero_iff_nil in I1.
  assert (Hnone : forall op, In op (pending s) -> batch_op op = false).
  { intros op Hop; destruct (batch_op op) eqn:E; [|reflexivity].
    assert (In op (filter batch_op (pending s))) by (apply filter_In; auto).
    rewrite I1 in H; contradiction. }
  split; [exact H0|split; [|split]].
  - intros b; split; intros H; apply Hnone in H; discriminate.
  - intros b Hb; destruct (I2 b Hb) as [H|[H|H]]; auto;
      apply Hnone in H; discriminate.
  - intros Ht; unfold is_training in *; rewrite Ht in I3, I4; simpl in I3, I4.
    split; [apply I4; reflexivity|].
    intros b Hb; destruct (I3 eq_refl b Hb) as [H|[H|H]]; auto;
      apply Hnone in H; discriminate.
Qed.

Lemma ProcessFile_drains_witness :
  exists s, reachable train_job0 1 s /\ pc s = PDone /\
    In (EGradientDone 0) (trace s).
Proof.
  destruct train_job0_run as [s [R [D A]]].
  exists s; split; [exact R|split; [exact D|]].
  exact (proj2 (proj2 (proj2 (proj2 (ProcessFile_drains train_job0 1 s R D)))
    eq_refl) 0 A).
Defined.

(** C4. Feature counts are requested from the localizer exactly when
    [job.type == Training && job.epoch == 0]; in that case, for every
    batch, the completion of its feature-count push comes before the
    batch is added to the tracker and before its weight pull. *)
Theorem ProcessFile_feacount_first (job : Job) (n : nat) (s : PState) :
  reachable job n s ->
  (forall b c, In (ECompact b c) (trace s) ->
     c = JobType_eqb (type job) kTraining && (epoch job =? 0)) /\
  (type job = kTraining -> epoch job = 0 -> forall b,
     before (EFeaCountDone b) (EAdd b) (trace s) /\
     before (EFeaCountDone b) (EPullWeight b) (trace s)).
Proof.
  intros Hr; destruct (reach_feacount job n s Hr) as [I1 [I2 _]].
  split; [exact I1|].
  intros Ht He; apply I2; unfold push_cnt; rewrite Ht, He; reflexivity.
Qed.

Lemma ProcessFile_feacount_first_witness :
  exists s, reachable train_job0 1 s /\ pc s = PDone /\
    before (EFeaCountDone 0) (EAdd 0) (trace s).
Proof.
  destruct train_job0_run as [s [R [D _]]].
  exists s; split; [exact R|split; [exact D|]].
  exact (proj1 (proj2 (ProcessFile_feacount_first train_job0 1 s R)
    eq_refl eq_refl 0)).
Defined.



End PipelineFacts.

(** ** Facts about the driver *)
Module DriverFacts.
Import JobDefs Driver.

Lemma starts_with_spec pat s :
  starts_with pat s = true <-> exists post, s = (pat ++ post)%string.
Proof.
  revert s; induction pat as [|a pat IH]; intros s; simpl.
  - split; [intros _; exists s; reflexivity|reflexivity].
  - destruct s as [|b s].
    + split; [discriminate|intros [post E]; discriminate E].
    + rewrite andb_true_iff, Ascii.eqb_eq, IH; split.
      * intros [-> [post ->]]; exists post; reflexivity.
      * intros [post E]; injection E as -> E; split; [reflexivity|].
        exists post; exact E.
Qed.

Lemma contains_cons pat a s :
  starts_with pat (String a s) = false ->
  contains pat (String a s) <-> contains pat s.
Proof.
  intros Hs; split.
  - intros [pre [post E]]; destruct pre as [|c pre].
    + exfalso; simpl in E.
      assert (starts_with pat (String a s) = true) as Ht
        by (apply starts_with_spec; exists post; exact E).
      congruence.
    + injection E as _ E; exists pre, post; exact E.
  - intros [pre [post E]]; exists (String a pre), post; simpl; congruence.
Qed.

Lemma find_none pat s : find pat s = None <-> ~ contains pat s.
Proof.
  induction s as [|a s IH]; simpl.
  - destruct (starts_with pat EmptyString) eqn:Hs.
    + split; [discriminate|intros H; exfalso; apply H].
      apply starts_with_spec in Hs; destruct Hs as [post E].
      exists EmptyString, post; exact E.
    + split; [intros _|reflexivity].
      intros [pre [post E]]; destruct pre; [|discriminate E].
      simpl in E.
      assert (starts_with pat EmptyString = true) as Ht
        by (apply starts_with_spec; exists post; exact E).
      congruence.
  - destruct (starts_with pat (String a s)) eqn:Hs.
    + split; [discriminate|intros H; exfalso; apply H].
      apply starts_with_spec in Hs; destruct Hs as [post E].
      exists EmptyString, post; exact E.
    + rewrite (contains_cons pat a s Hs), <- IH.
      destruct (find pat s); simpl; split; congruence.
Qed.

Lemma is_npos_find pat s : is_npos (find pat s) = true <-> ~ contains pat s.
Proof.
  rewrite <- find_none; destruct (find pat s); simpl; split; congruence.
Qed.

Lemma is_empty_spec s : is_empty s = true <-> s = EmptyString.
Proof. unfold is_empty; apply String.eqb_eq. Qed.

Lemma RunEpoch_type p ep jt jobs j :
  In (SAdd jobs) (RunEpoch p ep jt) -> In j jobs -> type j = jt.
Proof.
  unfold RunEpoch; destruct (is_empty _); cbn [In]; [tauto|].
  set (js := map _ (seq 0 100)).
  intros [E|[E|[]]]; [|discriminate E].
  assert (jobs = js) as -> by congruence.
  intros Hj; apply in_map_iff in Hj.
  destruct Hj as [i [<- _]]; reflexivity.
Qed.

Lemma train_epochs_no_predict n p jobs j :
  In (SAdd jobs) (train_epochs n p) -> In j jobs -> type j <> kPrediction.
Proof.
  unfold train_epochs; intros H Hj; apply in_flat_map in H.
  destruct H as [ep [_ H]]; apply in_app_or in H; destruct H as [H|H].
  - rewrite (RunEpoch_type p ep kTraining jobs j H Hj); discriminate.
  - apply in_app_or in H; destruct H as [H|H].
    + rewrite (RunEpoch_type p ep kValidation jobs j H Hj); discriminate.
    + apply repeat_spec in H; discriminate H.
Qed.

(** ** Claims about the driver *)

(** C8. [DiFacto::Init] always returns: its result is the list of
    keyword arguments left over after the parameters, the job tracker,
    the store and the loss have consumed theirs; it logs a warning
    (the header line followed by one line per leftover argument) if and
    only if the task does not contain "dist_" (local mode) and the
    leftover list is non-empty; in distributed mode it logs nothing.
    This holds whatever the collaborators consume. *)
Theorem Init_unknown_args
    (InitAllowUnknown : DiFactoParam -> KWArgs -> DiFactoParam * KWArgs)
    (tracker_init store_init loss_init : string -> KWArgs -> KWArgs)
    (param0 : DiFactoParam) (kwargs : KWArgs) :
  let o := Init InitAllowUnknown tracker_init store_init loss_init
             param0 kwargs in
  let p := fst (InitAllowUnknown param0 kwargs) in
  let kind := if local_ (self o) then "local"%string else "dist"%string in
  param_ (self o) = p /\
  (local_ (self o) = true <-> ~ contains "dist_" (task p)) /\
  ret o = loss_init (loss p)
            (store_init kind
               (tracker_init kind (snd (InitAllowUnknown param0 kwargs)))) /\
  (warnings o <> [] <-> ~ contains "dist_" (task p) /\ ret o <> []) /\
  (contains "dist_" (task p) -> warnings o = []) /\
  (warnings o = [] \/
   warnings o = "unrecognized keyword argument:"%string :: map warn_line (ret o)).
Proof.
  intros o p kind; subst o p kind; unfold Init.
  destruct (InitAllowUnknown param0 kwargs) as [p r]; simpl.
  rewrite <- (is_npos_find "dist_" (task p)).
  destruct (is_npos (find "dist_" (task p))) eqn:Ed; simpl;
    set (rem := loss_init _ _); destruct rem as [|kw rem']; simpl.
  all: repeat split; try tauto; try congruence; try discriminate.
  all: try (intros [_ H]; exfalso; apply H; reflexivity).
  all: try (intros _; discriminate).
  all: try (intros H; exfalso; apply H; reflexivity).
  all: try (intros [H _]; discriminate H).
  all: try (left; reflexivity); try (right; reflexivity).
  intros Hc; apply is_npos_find in Ed; contradiction.
Qed.

Lemma Init_unknown_args_witness :
  warnings (Init (fun p kw => (p, kw)) (fun _ kw => kw) (fun _ kw => kw)
              (fun _ kw => kw)
              (mkParam "train" "" "" "" "logit" 1)
              [("foo", "1")]%string) =
    ["unrecognized keyword argument:"; "  foo : 1"]%string /\
  warnings (Init (fun p kw => (p, kw)) (fun _ kw => kw) (fun _ kw => kw)
              (fun _ kw => kw)
              (mkParam "dist_train" "" "" "" "logit" 1)
              [("foo", "1")]%string) = [] /\
  (let o := Init (fun p kw => (p, kw)) (fun _ kw => kw) (fun _ kw => kw)
              (fun _ kw => kw)
              (mkParam "dist_train" "" "" "" "logit" 1)
              [("foo", "1")]%string in
   ret o = [("foo", "1")]%string /\ warnings o = []).
Proof.
  split; [reflexivity|split; [reflexivity|]].
  pose proof (Init_unknown_args (fun p kw => (p, kw)) (fun _ kw => kw)
    (fun _ kw => kw) (fun _ kw => kw)
    (mkParam "dist_train" "" "" "" "logit" 1) [("foo", "1")]%string) as H.
  simpl in H |- *.
  destruct H as [_ [_ [Hr [_ [Hd _]]]]].
  split; [exact Hr|apply Hd].
  exists EmptyString, "train"%string; reflexivity.
Defined.

(** C10. If the task contains "predict" and [model_in] is empty,
    [RunScheduler] fails its [CHECK] before it adds any job to the
    tracker; whenever it adds prediction jobs, [model_in] is non-empty
    and the first thing it did was to add the job loading [model_in]
    and wait for it. *)
Theorem RunScheduler_predict_needs_model
    (default_job : Job) (n_epoch_cbs : nat) (p : DiFactoParam) :
  (contains "predict" (task p) -> model_in p = EmptyString ->
   RunScheduler default_job n_epoch_cbs p = ([], CheckFailed)) /\
  (forall jobs j,
   In (SAdd jobs) (fst (RunScheduler default_job n_epoch_cbs p)) ->
   In j jobs -> type j = kPrediction ->
   model_in p <> EmptyString /\
   exists rest, fst (RunScheduler default_job n_epoch_cbs p) =
                SAdd [load_job default_job p] :: SWait :: rest).
Proof.
  unfold RunScheduler; split.
  - intros Hc He.
    assert (is_npos (find "predict" (task p)) = false) as Hp.
    { destruct (is_npos _) eqn:E; [|reflexivity].
      apply is_npos_find in E; contradiction. }
    assert (is_empty (model_in p) = true) as Hm by (apply is_empty_spec; exact He).
    rewrite Hp, Hm; reflexivity.
  - intros jobs j.
    destruct (is_empty (model_in p)) eqn:Hm;
      destruct (is_npos (find "predict" (task p))); simpl.
    + intros H Hj Ht; exfalso.
      exact (train_epochs_no_predict n_epoch_cbs p jobs j H Hj Ht).
    + tauto.
    + intros _ _ _; split.
      * intros E; apply is_empty_spec in E; congruence.
      * eexists; reflexivity.
    + intros _ _ _; split.
      * intros E; apply is_empty_spec in E; congruence.
      * eexists; reflexivity.
Qed.

Lemma RunScheduler_predict_needs_model_witness :
  RunScheduler job0 2 (mkParam "predict" "test.txt" "" "" "logit" 3) =
    ([], CheckFailed) /\
  exists rest,
    fst (RunScheduler job0 0 (mkParam "predict" "test.txt" "" "m.bin" "logit" 0)) =
    SAdd [load_job job0 (mkParam "predict" "test.txt" "" "m.bin" "logit" 0)]
      :: SWait :: rest.
Proof.
  split.
  - apply (proj1 (RunScheduler_predict_needs_model job0 2
      (mkParam "predict" "test.txt" "" "" "logit" 3))).
    + exists EmptyString, EmptyString; reflexivity.
    + reflexivity.
  - apply (proj2 (RunScheduler_predict_needs_model job0 0
      (mkParam "predict" "test.txt" "" "m.bin" "logit" 0))
      (map (fun i => mkJob kPrediction 0 "test.txt" i 100) (seq 0 100))
      (mkJob kPrediction 0 "test.txt" 0 100)).
    + simpl; tauto.
    + simpl; tauto.
    + reflexivity.
Defined.

End DriverFacts.

(** ** More properties of the SpMM kernel *)
Module SpMMExtra.
Import SpMM SpMMFacts.

Lemma acts_at_zero a l :
  (forall ad, In ad l -> fst ad <> a) -> acts_at a l = 0%Z.
Proof.
  intros H; unfold acts_at; apply sumZ_map_zero.
  intros ad Had; specialize (H ad Had).
  destruct (fst ad =? a) eqn:E; [apply Nat.eqb_eq in E; contradiction|reflexivity].
Qed.

Lemma seg_b_le n nt t : t <= nt -> seg_b n nt t <= n.
Proof.
  intros H; unfold seg_b; rewrite Nat.sub_0_r; simpl.
  destruct nt as [|nt]; [simpl; lia|].
  apply Nat.Div0.div_le_upper_bound; nia.
Qed.

(** Every update of [Times]' parallel region is below [D.size * dim]. *)
Lemma times_region_below D x dim nt ad :
  In ad (concat (region nt (times_thread D x dim nt))) ->
  fst ad < size D * dim.
Proof.
  unfold region; intros H; apply in_concat in H as [l [Hl H]].
  apply in_map_iff in Hl as [t [<- Ht]]; apply in_seq in Ht.
  destruct ad as [a d].
  apply times_thread_owns in H; simpl.
  pose proof (seg_b_le (size D) nt (S t) ltac:(lia)); nia.
Qed.

Lemma set_prefix_full f n y :
  length y <= n -> set_prefix f n y = map f (seq 0 (length y)).
Proof.
  revert f n; induction y as [|v y IH]; intros f n H;
    [destruct n; reflexivity|].
  destruct n as [|n]; simpl in H; [lia|]; simpl.
  rewrite IH by lia; f_equal.
  rewrite <- seq_shift, map_map; reflexivity.
Qed.

Lemma flat_map_ext_In {A B} (f g : A -> list B) l :
  (forall u, In u l -> f u = g u) -> flat_map f l = flat_map g l.
Proof.
  induction l as [|u l IH]; intros H; simpl; [reflexivity|].
  rewrite H by (left; reflexivity); rewrite IH by (intros; apply H; right; auto).
  reflexivity.
Qed.

Lemma rd_Z_repeat c n j : j < n -> rd_Z (repeat c n) j = c.
Proof.
  unfold rd_Z; revert j; induction n as [|n IH]; intros j H; [lia|].
  destruct j; simpl; [reflexivity|apply IH; lia].
Qed.

Lemma row_nz_below D i j :
  In j (seq (rd_nat (offset D) i)
            (rd_nat (offset D) (S i) - rd_nat (offset D) i)) ->
  j < rd_nat (offset D) (S i).
Proof. intros H; apply in_seq in H; lia. Qed.

Lemma times_row_unit D x dim n i :
  value D = None -> (forall i, rd_nat (offset D) i <= n) ->
  times_row D x dim i = times_row (with_unit_values D n) x dim i.
Proof.
  intros Hv Ho; unfold times_row; simpl; rewrite Hv.
  destruct (_ =? _); [reflexivity|].
  apply flat_map_ext_In; intros j Hj; apply map_ext; intros k.
  apply row_nz_below in Hj; specialize (Ho (S i)).
  rewrite rd_Z_repeat by lia; f_equal; lia.
Qed.

Lemma trans_row_unit D x dim rg n i :
  value D = None -> (forall i, rd_nat (offset D) i <= n) ->
  trans_row D x dim rg i = trans_row (with_unit_values D n) x dim rg i.
Proof.
  intros Hv Ho; unfold trans_row; simpl; rewrite Hv.
  destruct (_ =? _); [reflexivity|].
  apply flat_map_ext_In; intros j Hj.
  destruct (Has _ _); [|reflexivity]; apply map_ext; intros k.
  apply row_nz_below in Hj; specialize (Ho (S i)).
  rewrite rd_Z_repeat by lia; f_equal; lia.
Qed.

Lemma sumZ_map_add {A} (f g : A -> Z) l :
  sumZ (map (fun u => (f u + g u)%Z) l) = (sumZ (map f l) + sumZ (map g l))%Z.
Proof. induction l as [|u l IH]; simpl; [reflexivity|]; rewrite IH; ring. Qed.

Lemma sumZ_map_mul_l {A} c (f : A -> Z) l :
  (c * sumZ (map f l))%Z = sumZ (map (fun u => (c * f u)%Z) l).
Proof. induction l as [|u l IH]; simpl; [ring|]; rewrite <- IH; ring. Qed.

Lemma sumZ_map_mul_r {A} c (f : A -> Z) l :
  (sumZ (map f l) * c)%Z = sumZ (map (fun u => (f u * c)%Z) l).
Proof. induction l as [|u l IH]; simpl; [ring|]; rewrite <- IH; ring. Qed.

Lemma sumZ_swap {A B} (f : A -> B -> Z) la lb :
  sumZ (map (fun a => sumZ (map (fun b => f a b) lb)) la) =
  sumZ (map (fun b => sumZ (map (fun a => f a b) la)) lb).
Proof.
  induction la as [|a la IH]; simpl.
  - symmetry; apply sumZ_map_zero; reflexivity.
  - rewrite IH, <- sumZ_map_add; reflexivity.
Qed.

Lemma sumZ_reorder4 (G : nat -> nat -> nat -> nat -> Z) le lk li
  (lj : nat -> list nat) :
  sumZ (map (fun e => sumZ (map (fun k => sumZ (map (fun i =>
    sumZ (map (fun j => G e k i j) (lj i))) li)) lk)) le) =
  sumZ (map (fun i => sumZ (map (fun j => sumZ (map (fun k =>
    sumZ (map (fun e => G e k i j) le)) lk)) (lj i))) li).
Proof.
  rewrite (sumZ_swap (fun e k => sumZ (map (fun i =>
    sumZ (map (fun j => G e k i j) (lj i))) li))).
  transitivity (sumZ (map (fun k => sumZ (map (fun i => sumZ (map (fun j =>
    sumZ (map (fun e => G e k i j) le)) (lj i))) li)) lk)).
  - apply sumZ_map_ext; intros k _.
    rewrite (sumZ_swap (fun e i => sumZ (map (fun j => G e k i j) (lj i)))).
    apply sumZ_map_ext; intros i _.
    apply (sumZ_swap (fun e j => G e k i j)).
  - rewrite (sumZ_swap (fun k i => sumZ (map (fun j =>
      sumZ (map (fun e => G e k i j) le)) (lj i)))).
    apply sumZ_map_ext; intros i _.
    apply (sumZ_swap (fun k j => sumZ (map (fun e => G e k i j) le))).
Qed.

Lemma seq_add_shift s n : seq s n = map (fun k => s + k) (seq 0 n).
Proof.
  induction n as [|n IH]; [reflexivity|].
  rewrite !seq_S, map_app, IH; reflexivity.
Qed.

Lemma seq_blocks (f : nat -> Z) n dim :
  sumZ (map f (seq 0 (n * dim))) =
  sumZ (map (fun i => sumZ (map (fun k => f (i * dim + k)) (seq 0 dim)))
    (seq 0 n)).
Proof.
  induction n as [|n IH]; [reflexivity|].
  replace (S n * dim) with (n * dim + dim) by lia.
  rewrite seq_app, map_app, sumZ_app, IH, seq_S, map_app, sumZ_app.
  simpl; rewrite (seq_add_shift (n * dim)), map_map; lia.
Qed.

(** ** Extra properties of the SpMM kernel *)

(** For a well-formed matrix with [D.size > 0] whose column indices are
    below [m], a non-empty [x] with at least [m * dim] elements, where
    [dim = y.size() / D.size < 2^31], [Times] returns without changing
    the size of [y] and never writes at or past [D.size * dim]: the
    elements there keep their values; in particular a [y] shorter than
    [D.size] is left as it was. *)
Theorem Times_tail_untouched (D : SpMat) (x y : list Z) (m nt : nat) :
  x <> [] -> 0 < size D -> (Z.of_nat (length y / size D) < 2 ^ 31)%Z ->
  well_formed D = true -> index_below D m = true ->
  m * (length y / size D) <= length x ->
  exists y', Times D x y nt = Some y' /\ length y' = length y /\
    forall a, size D * (length y / size D) <= a -> nth a y' 0%Z = nth a y 0%Z.
Proof.
  intros Hx Hn Hq _ _ _; rewrite Times_unfold by assumption.
  eexists; split; [reflexivity|]; split; [apply Times_priv_length|].
  intros a Ha.
  destruct (Nat.lt_ge_cases a (length y)) as [Hl|Hl].
  - unfold region_run.
    rewrite run_acts_nth by (unfold memset0; rewrite set_prefix_length; exact Hl).
    unfold memset0; rewrite nth_set_prefix by exact Hl.
    replace (a <? size D * (length y / size D)) with false
      by (symmetry; apply Nat.ltb_ge; exact Ha).
    rewrite acts_at_zero; [lia|].
    intros ad Had; apply times_region_below in Had; lia.
  - rewrite !nth_overflow; [reflexivity|exact Hl|].
    rewrite Times_priv_length; exact Hl.
Qed.

Lemma Times_tail_untouched_witness :
  Times exD [5; 7]%Z [1; 1; 1; 1]%Z 2 = Some [5; 31; 0; 1]%Z /\
  Times exD [5; 7]%Z [4; 4]%Z 2 = Some [4; 4]%Z /\
  nth 3 [1; 1; 1; 1]%Z 0%Z = 1%Z.
Proof.
  split; [reflexivity|split; [reflexivity|]].
  destruct (Times_tail_untouched exD [5; 7]%Z [1; 1; 1; 1]%Z 2 2)
    as [y' [E [_ Ht]]]; [discriminate|simpl; lia|simpl; lia|reflexivity
    |reflexivity|simpl; lia|].
  rewrite <- (Ht 3) by (simpl; lia).
  vm_compute in E; injection E as <-; reflexivity.
Defined.

(** The transposed product (either public form) with a non-empty [x]
    shorter than [D.size] computes [dim = x.size() / D.size = 0] and then
    divides by zero in [y_size / dim]. *)
Theorem TransTimes_short_x_crash (D : SpMat) (x z y : list Z) (p : Z) (nt : nat) :
  x <> [] -> length x < size D ->
  TransTimesBias D x p z y nt = None /\ TransTimes D x y nt = None.
Proof.
  intros Hx Hl; unfold TransTimes; rewrite !TransTimesBias_unfold by exact Hx.
  replace (size D =? 0) with false by (symmetry; apply Nat.eqb_neq; lia).
  rewrite Nat.div_small by exact Hl; unfold TransTimes_priv; simpl.
  split; destruct (_ && _); reflexivity.
Qed.

Lemma TransTimes_short_x_crash_witness :
  TransTimesBias exD [1; 2]%Z 1 [1; 1]%Z [0; 0]%Z 4 = None /\
  TransTimes exD [1; 2]%Z [0; 0]%Z 4 = None.
Proof.
  apply TransTimes_short_x_crash; [discriminate|simpl; lia].
Defined.

(** Both products overwrite their output: for a non-empty [x], the
    result of the biased [TransTimes] does not depend on the previous
    contents of [y], only on its size; the same holds for [Times] when
    [y.size()] is a multiple of [D.size] and [y.size() / D.size < 2^31]. *)
Theorem SpMM_output_overwritten (D : SpMat) (x z y1 y2 : list Z) (p : Z)
  (nt : nat) :
  x <> [] -> length y1 = length y2 ->
  TransTimesBias D x p z y1 nt = TransTimesBias D x p z y2 nt /\
  (size D * (length y1 / size D) = length y1 ->
   (Z.of_nat (length y1 / size D) < 2 ^ 31)%Z ->
   Times D x y1 nt = Times D x y2 nt).
Proof.
  intros Hx Hl; split.
  - rewrite !TransTimesBias_unfold by exact Hx; rewrite Hl.
    destruct (size D =? 0); [reflexivity|].
    unfold TransTimes_priv, trans_fill, memset0.
    rewrite !set_prefix_full, Hl by lia; reflexivity.
  - intros Hm Hq; destruct (Nat.eq_dec (size D) 0) as [H0|H0].
    + destruct x as [|x0 xs]; [contradiction|]; unfold Times.
      replace (size D =? 0) with true by (symmetry; apply Nat.eqb_eq; exact H0).
      reflexivity.
    + rewrite !Times_unfold by (auto; try lia; rewrite <- Hl; exact Hq).
      unfold memset0; rewrite <- Hl.
      rewrite !set_prefix_full, Hl by lia; reflexivity.
Qed.

Lemma SpMM_output_overwritten_witness :
  TransTimes exD [1; 1; 0]%Z [9; 9]%Z 4 = Some [3; 3]%Z /\
  Times exD [5; 7]%Z [9; 9; 9]%Z 4 = Some [5; 31; 0]%Z.
Proof.
  destruct (SpMM_output_overwritten exD [1; 1; 0]%Z [] [9; 9]%Z [0; 0]%Z 0 4)
    as [E1 _]; [discriminate|reflexivity|].
  destruct (SpMM_output_overwritten exD [5; 7]%Z [] [9; 9; 9]%Z [0; 0; 0]%Z 0 4)
    as [_ E2]; [discriminate|reflexivity|].
  split.
  - unfold TransTimes; rewrite E1; reflexivity.
  - rewrite (E2 eq_refl ltac:(simpl; lia)); reflexivity.
Defined.

(** A matrix without a value array gives the same results as the same
    matrix with an explicit array of ones, as long as that array covers
    every offset ([value[j] = 1] for every [j] a row reads). *)
Theorem SpMM_no_values_unit (D : SpMat) (n : nat) (x z y : list Z) (p : Z)
  (nt : nat) :
  value D = None -> (forall i, rd_nat (offset D) i <= n) ->
  Times D x y nt = Times (with_unit_values D n) x y nt /\
  TransTimesBias D x p z y nt = TransTimesBias (with_unit_values D n) x p z y nt.
Proof.
  intros Hv Ho.
  assert (HR : forall x' dim nt', region nt' (times_thread D x' dim nt') =
    region nt' (times_thread (with_unit_values D n) x' dim nt')).
  { intros x' dim nt'; unfold region; apply map_ext; intros t.
    unfold times_thread; simpl.
    apply flat_map_ext; intros i; apply times_row_unit; assumption. }
  assert (HT : forall x' ys dim nt', region nt' (trans_thread D x' ys dim nt') =
    region nt' (trans_thread (with_unit_values D n) x' ys dim nt')).
  { intros x' ys dim nt'; unfold region; apply map_ext; intros t.
    unfold trans_thread; simpl.
    apply flat_map_ext; intros i; apply trans_row_unit; assumption. }
  split.
  - unfold Times; destruct x as [|x0 xs]; [reflexivity|].
    change (size (with_unit_values D n)) with (size D).
    destruct (size D =? 0); [reflexivity|].
    unfold Times_priv, region_exec, region_run; rewrite !HR; reflexivity.
  - unfold TransTimesBias; destruct x as [|x0 xs]; [reflexivity|].
    change (size (with_unit_values D n)) with (size D).
    destruct (size D =? 0); [reflexivity|].
    unfold TransTimes_priv, region_exec, region_run; rewrite !HT; reflexivity.
Qed.

Lemma SpMM_no_values_unit_witness :
  Times (mkSpMat 2 [0; 2; 3] [0; 1; 1]%N None) [5; 7]%Z [0; 0]%Z 1 =
    Some [12; 7]%Z /\
  Times (with_unit_values (mkSpMat 2 [0; 2; 3] [0; 1; 1]%N None) 3)
    [5; 7]%Z [0; 0]%Z 1 = Some [12; 7]%Z.
Proof.
  destruct (SpMM_no_values_unit (mkSpMat 2 [0; 2; 3] [0; 1; 1]%N None) 3
    [5; 7]%Z [] [0; 0]%Z 0 1) as [E _]; [reflexivity| |].
  - intros [|[|[|i]]]; unfold rd_nat; simpl; try lia; destruct i; simpl; lia.
  - rewrite <- E; split; reflexivity.
Defined.

(** [TransTimes] is the adjoint of [Times]: for a matrix with at least one
    row whose column indices are below [m], a non-empty [x] of shape
    [m x dim] ([m * dim <= 2^32], [dim < 2^31]) and [u] of shape
    [size x dim], the
    results [y' = D x] and [w' = D' u] of the kernel satisfy
    [<u, y'> = <w', x>]. *)
Theorem Times_TransTimes_adjoint (D : SpMat) (x y u w : list Z)
  (m dim nt : nat) :
  x <> [] -> 0 < size D -> 1 <= nt ->
  length x = m * dim -> length y = size D * dim ->
  length u = size D * dim -> length w = m * dim ->
  index_below D m = true -> (N.of_nat (m * dim) <= 2 ^ 32)%N ->
  (Z.of_nat dim < 2 ^ 31)%Z ->
  exists y' w', Times D x y nt = Some y' /\ TransTimes D u w nt = Some w' /\
    dot u y' = dot w' x.
Proof.
  intros Hx Hn Hnt Hlx Hly Hlu Hlw Hib Hm Hd31.
  assert (Hd : 0 < dim).
  { destruct dim; [|lia]. destruct x; [contradiction|]. simpl in Hlx; lia. }
  assert (Hu : u <> []) by (intros ->; simpl in Hlu; nia).
  destruct (TransTimesBias_spec D u 0 [] w m dim nt Hu Hn Hnt Hlu Hlw Hm Hd31)
    as [w' [Ew [Hlw' Hw']]].
  assert (Hq : length y / size D = dim)
    by (rewrite Hly, Nat.mul_comm, Nat.div_mul by lia; reflexivity).
  exists (region_run nt (times_thread D x dim nt) (memset0 (size D * dim) y)), w'.
  split.
  { rewrite Times_unfold by (auto; rewrite Hq; exact Hd31).
    rewrite Hq; reflexivity. }
  split; [exact Ew|].
  transitivity (sumZ (map (fun i => sumZ (map (fun j => sumZ (map (fun k =>
    (nz_val D j * rd_Z u (i * dim + k) *
     rd_Z x (N.to_nat (rd_N (index D) j) * dim + k))%Z)
    (seq 0 dim))) (row_range D i))) (seq 0 (size D)))).
  - unfold dot; rewrite Hlu, seq_blocks.
    apply sumZ_map_ext; intros i Hi; apply in_seq in Hi.
    rewrite <- (sumZ_swap (fun k j => (nz_val D j * rd_Z u (i * dim + k) *
       rd_Z x (N.to_nat (rd_N (index D) j) * dim + k))%Z)).
    apply sumZ_map_ext; intros k Hk; apply in_seq in Hk.
    unfold rd_Z at 2; rewrite Times_priv_nth by lia.
    rewrite sumZ_map_mul_l; apply sumZ_map_ext; intros j Hj.
    rewrite (u32_mul_small _ dim m) by
      (try exact Hm; apply (index_below_spec D m i j); auto; lia).
    ring.
  - unfold dot; rewrite Hlw', Hlw, seq_blocks.
    transitivity (sumZ (map (fun e => sumZ (map (fun k =>
      sumZ (map (fun i => sumZ (map (fun j =>
        if N.to_nat (rd_N (index D) j) =? e
        then (nz_val D j * rd_Z u (i * dim + k) * rd_Z x (e * dim + k))%Z
        else 0%Z) (row_range D i))) (seq 0 (size D)))) (seq 0 dim)))
      (seq 0 m))).
    2: {
      symmetry; apply sumZ_map_ext; intros e He; apply in_seq in He.
      apply sumZ_map_ext; intros k Hk; apply in_seq in Hk.
      unfold rd_Z at 1; rewrite Hw' by lia.
      rewrite andb_false_r, Z.add_0_l.
      unfold col_dot; rewrite sumZ_flat_map, sumZ_map_mul_r.
      apply sumZ_map_ext; intros i _; rewrite sumZ_map_mul_r.
      apply sumZ_map_ext; intros j _.
      destruct (N.to_nat (rd_N (index D) j) =? e); ring. }
    symmetry; etransitivity; [apply (sumZ_reorder4 (fun e k i j =>
        if N.to_nat (rd_N (index D) j) =? e
        then (nz_val D j * rd_Z u (i * dim + k) * rd_Z x (e * dim + k))%Z
        else 0%Z))|].
    apply sumZ_map_ext; intros i Hi; apply in_seq in Hi.
    apply sumZ_map_ext; intros j Hj.
    apply sumZ_map_ext; intros k Hk.
    pose proof (index_below_spec D m i j Hib ltac:(lia) Hj) as Hjm.
    rewrite (sumZ_map_seq_single (fun e =>
        if N.to_nat (rd_N (index D) j) =? e
        then (nz_val D j * rd_Z u (i * dim + k) * rd_Z x (e * dim + k))%Z
        else 0%Z) 0 m (N.to_nat (rd_N (index D) j))).
    + rewrite Nat.eqb_refl; reflexivity.
    + lia.
    + intros e He; simpl.
      destruct (N.to_nat (rd_N (index D) j) =? e) eqn:E; [|reflexivity].
      apply Nat.eqb_eq in E; congruence.
Qed.

Lemma Times_TransTimes_adjoint_witness :
  dot [1; 2; 3]%Z [5; 31; 0]%Z = dot [5; 6]%Z [5; 7]%Z.
Proof.
  destruct (Times_TransTimes_adjoint exD [5; 7]%Z [0; 0; 0]%Z [1; 2; 3]%Z
    [0; 0]%Z 2 1 4) as [y' [w' [E1 [E2 Hd]]]];
    [discriminate|simpl; lia|lia|reflexivity|reflexivity|reflexivity
    |reflexivity|reflexivity|vm_compute; discriminate|lia|].
  vm_compute in E1, E2; injection E1 as <-; injection E2 as <-; exact Hd.
Defined.

End SpMMExtra.

(** ** More properties of the driver *)
Module DriverExtra.
Import JobDefs Driver DriverFacts.

Lemma cb_RunEpoch p ep jt : filter is_epoch_cb (RunEpoch p ep jt) = [].
Proof. unfold RunEpoch; destruct (is_empty _); reflexivity. Qed.

Lemma cb_repeat n : filter is_epoch_cb (repeat SEpochCb n) = repeat SEpochCb n.
Proof. induction n as [|n IH]; simpl; [reflexivity|]; rewrite IH; reflexivity. Qed.

Lemma cb_train n p :
  length (filter is_epoch_cb (train_epochs n p)) =
  Z.to_nat (max_num_epochs p) * n.
Proof.
  unfold train_epochs; induction (Z.to_nat _) as [|e IH]; [reflexivity|].
  rewrite seq_S, flat_map_app, filter_app, length_app, IH; simpl.
  rewrite !filter_app, !cb_RunEpoch, app_nil_r; simpl.
  rewrite cb_repeat, repeat_length; lia.
Qed.

(** A job of one call of [RunEpoch]. *)
Lemma RunEpoch_jobs p ep jt jobs :
  In (SAdd jobs) (RunEpoch p ep jt) ->
  map part_idx jobs = seq 0 100 /\
  forall j, In j jobs -> type j = jt /\ epoch j = ep /\ num_parts j = 100 /\
    filename j = (if JobType_eqb jt kValidation then val_data p else data_in p) /\
    filename j <> EmptyString.
Proof.
  unfold RunEpoch; destruct (is_empty _) eqn:Ee; cbn [In]; [tauto|].
  set (js := map _ (seq 0 100)).
  intros [E|[E|[]]]; [|discriminate E].
  assert (jobs = js) as -> by congruence.
  split; [unfold js; rewrite map_map; apply map_id|].
  intros j Hj; apply in_map_iff in Hj as [i [<- _]]; simpl.
  repeat split; try reflexivity.
  intros E'; apply is_empty_spec in E'; congruence.
Qed.

(** ** Extra properties of the driver *)

(** When [RunScheduler] runs to the end, it calls each of the
    [n_epoch_cbs] epoch callbacks once per epoch, [max_num_epochs] times
    (none when [max_num_epochs <= 0]), also for epochs whose data files
    are empty. *)
Theorem RunScheduler_epoch_callbacks (default_job : Job) (n_epoch_cbs : nat)
  (p : DiFactoParam) :
  snd (RunScheduler default_job n_epoch_cbs p) = Finished ->
  length (filter is_epoch_cb (fst (RunScheduler default_job n_epoch_cbs p))) =
  Z.to_nat (max_num_epochs p) * n_epoch_cbs.
Proof.
  unfold RunScheduler.
  destruct (is_npos _); [|destruct (is_empty (model_in p)) eqn:Em];
    simpl; intros H; try discriminate H;
    rewrite ?filter_app, ?length_app, ?cb_RunEpoch, cb_train;
    try (rewrite Em); destruct (is_empty (model_in p)); reflexivity.
Qed.

Lemma RunScheduler_epoch_callbacks_witness :
  length (filter is_epoch_cb
    (fst (RunScheduler job0 2 (mkParam "train" "" "" "" "logit" 3)))) = 6.
Proof.
  apply (RunScheduler_epoch_callbacks job0 2 (mkParam "train" "" "" "" "logit" 3)).
  reflexivity.
Defined.

(** Every list of jobs [RunScheduler] adds to the tracker is either the
    single load job of a non-empty [model_in], or the 100 partition jobs
    [0..99] of one pass, all of the same type and epoch, with
    [num_parts = 100] and a non-empty file name ([val_data] for a
    validation pass, [data_in] otherwise); a prediction pass has epoch 0,
    training and validation passes have an epoch below [max_num_epochs]. *)
Theorem RunScheduler_jobs (default_job : Job) (n_epoch_cbs : nat)
  (p : DiFactoParam) (jobs : list Job) :
  In (SAdd jobs) (fst (RunScheduler default_job n_epoch_cbs p)) ->
  (jobs = [load_job default_job p] /\ model_in p <> EmptyString) \/
  (exists jt ep, map part_idx jobs = seq 0 100 /\
   ((jt = kPrediction /\ ep = 0) \/
    ((jt = kTraining \/ jt = kValidation) /\ (Z.of_nat ep < max_num_epochs p)%Z)) /\
   forall j, In j jobs -> type j = jt /\ epoch j = ep /\ num_parts j = 100 /\
     filename j = (if JobType_eqb jt kValidation then val_data p else data_in p) /\
     filename j <> EmptyString).
Proof.
  assert (Hload : In (SAdd jobs)
      (if is_empty (model_in p) then [] else [SAdd [load_job default_job p]; SWait]) ->
      jobs = [load_job default_job p] /\ model_in p <> EmptyString).
  { destruct (is_empty (model_in p)) eqn:Em; cbn [In]; [tauto|].
    intros [E|[E|[]]]; [|discriminate E].
    split; [congruence|intros E'; apply is_empty_spec in E'; congruence]. }
  assert (Htrain : In (SAdd jobs) (train_epochs n_epoch_cbs p) ->
    exists jt ep, map part_idx jobs = seq 0 100 /\
     ((jt = kPrediction /\ ep = 0) \/
      ((jt = kTraining \/ jt = kValidation) /\ (Z.of_nat ep < max_num_epochs p)%Z)) /\
     forall j, In j jobs -> type j = jt /\ epoch j = ep /\ num_parts j = 100 /\
       filename j = (if JobType_eqb jt kValidation then val_data p else data_in p) /\
       filename j <> EmptyString).
  { unfold train_epochs; intros H; apply in_flat_map in H as [ep [Hep H]].
    apply in_seq in Hep.
    assert (Z.of_nat ep < max_num_epochs p)%Z by lia.
    apply in_app_or in H; destruct H as [H|H];
      [|apply in_app_or in H; destruct H as [H|H]].
    - exists kTraining, ep; destruct (RunEpoch_jobs _ _ _ _ H) as [H1 H2].
      split; [exact H1|split; [right; auto|exact H2]].
    - exists kValidation, ep; destruct (RunEpoch_jobs _ _ _ _ H) as [H1 H2].
      split; [exact H1|split; [right; auto|exact H2]].
    - apply repeat_spec in H; discriminate H. }
  unfold RunScheduler.
  destruct (is_npos _); [|destruct (is_empty (model_in p))]; cbn [fst];
    intros H; repeat (apply in_app_or in H; destruct H as [H|H]); auto;
    try contradiction.
  right; exists kPrediction, 0; destruct (RunEpoch_jobs _ _ _ _ H) as [H1 H2].
    split; [exact H1|split; [left; auto|exact H2]].
Qed.

Lemma RunScheduler_jobs_witness :
  exists jt ep, map part_idx (map (fun i => mkJob kTraining 0 "d" i 100) (seq 0 100)) =
    seq 0 100 /\ jt = kTraining /\ ep = 0.
Proof.
  destruct (RunScheduler_jobs job0 0 (mkParam "train" "d" "" "" "logit" 1)
    (map (fun i => mkJob kTraining 0 "d" i 100) (seq 0 100)))
    as [[E _]|[jt [ep [H1 [_ H2]]]]].
  - simpl; left; reflexivity.
  - discriminate E.
  - exists jt, ep; split; [exact H1|].
    destruct (H2 (mkJob kTraining 0 "d" 0 100)) as [Ht [He _]];
      [simpl; left; reflexivity|].
    simpl in Ht, He; split; congruence.
Defined.

End DriverExtra.

(** ** More properties of [ProcessFile] *)
Module PipelineExtra.
Import JobDefs Pipeline PipelineFacts.

Ltac pick := first [ assumption | congruence | (left; pick) | (right; pick) ].
Ltac peel H := repeat (destruct H as [H|H]; [discriminate|]).

Lemma filter_remove {A} (f : A -> bool) l1 x l2 :
  length (filter f (l1 ++ x :: l2)) =
  length (filter f (l1 ++ l2)) + (if f x then 1 else 0).
Proof.
  rewrite !filter_app, !length_app; simpl; destruct (f x); simpl; lia.
Qed.

Lemma filter_length_pos {A} (f : A -> bool) l x :
  In x l -> f x = true -> 1 <= length (filter f l).
Proof.
  intros Hx Hf; assert (In x (filter f l)) as H by (apply filter_In; auto).
  destruct (filter f l); [contradiction|simpl; lia].
Qed.

Lemma filter_length_zero {A} (f : A -> bool) l :
  (forall x, In x l -> f x = false) -> length (filter f l) = 0.
Proof.
  induction l as [|x l IH]; intros H; simpl; [reflexivity|].
  rewrite H by (left; reflexivity); apply IH; intros; apply H; right; auto.
Qed.

Lemma filter_length_le {A} (f g : A -> bool) l :
  (forall x, f x = true -> g x = true) ->
  length (filter f l) <= length (filter g l).
Proof.
  intros H; induction l as [|x l IH]; simpl; [lia|].
  destruct (f x) eqn:E; [rewrite (H x E); simpl; lia|].
  destruct (g x); simpl; lia.
Qed.

Lemma is_add_true b e : is_add b e = true -> e = EAdd b.
Proof.
  destruct e; simpl; try discriminate; intros E; apply Nat.eqb_eq in E; congruence.
Qed.

Lemma no_add_count b tr : ~ In (EAdd b) tr -> length (filter (is_add b) tr) = 0.
Proof.
  intros H; apply filter_length_zero; intros e He.
  destruct (is_add b e) eqn:E; [apply is_add_true in E; subst; contradiction|reflexivity].
Qed.

Section Ids.
Variable job : Job.

Lemma store_done_unread op s : unread (store_done job op s) = unread s.
Proof.
  destruct op; simpl; unfold pull_callback, on_complete;
    try destruct (JobType_eqb _ _); reflexivity.
Qed.

Lemma store_done_next_id op s : next_id (store_done job op s) = next_id s.
Proof.
  destruct op; simpl; unfold pull_callback, on_complete;
    try destruct (JobType_eqb _ _); reflexivity.
Qed.

Lemma store_done_adds op s b :
  (In (EAdd b) (trace (store_done job op s)) <-> In (EAdd b) (trace s)) /\
  filter (is_add b) (trace (store_done job op s)) = filter (is_add b) (trace s).
Proof.
  destruct op; simpl; unfold pull_callback, on_complete;
    try destruct (JobType_eqb _ _); simpl;
    (split; [split; [intros H; peel H; exact H|intros H; auto]|reflexivity]).
Qed.

Lemma store_done_counts op s b :
  length (filter (is_complete b) (trace (store_done job op s))) +
  length (filter (batch_op_of b) (pending (store_done job op s))) =
  length (filter (is_complete b) (trace s)) +
  length (filter (batch_op_of b) (pending s)) +
  (if batch_op_of b op then 1 else 0).
Proof.
  destruct op as [b0|b0|b0]; simpl; unfold pull_callback, on_complete;
    try destruct (JobType_eqb _ _); simpl;
    destruct (b0 =? b); simpl; lia.
Qed.

Lemma reach_ids n s : reachable job n s -> inv_ids n s.
Proof.
  induction 1 as [|s s' Hr IH Hs].
  - unfold inv_ids, in_flight; cbn.
    split; [lia|split; [tauto|split; [|split; [|split; [|split]]]]].
    + intros b [E|[E|E]]; discriminate.
    + intros b Hb; lia.
    + intros [E|E]; discriminate.
    + intros b; reflexivity.
    + intros b; simpl; lia.
  - destruct IH as [I1 [I2 [I3 [I4 [I5 [I6 I7]]]]]].
    unfold in_flight in I3, I4.
    destruct Hs as
      [s u Hpc Hu|s Hpc Hu|s b Hpc Hn|s b Hpc Hle|s b Hpc|s Hpc Hr0|s l1 op l2 Hp].
    + (* StepRead *)
      subst b s1.
      assert (Hnew : ~ In (EAdd (next_id s)) (trace s))
        by (intros H; apply I2 in H; lia).
      destruct (push_cnt job); unfold inv_ids, in_flight, set_pc, issue, emit; cbn;
        (split; [lia|split; [|split; [|split; [|split; [|split]]]]]).
      all: try (intros b' H; peel H; apply I2 in H; lia).
      all: try (intros b' [E|[E|E]]; try discriminate; injection E as <-;
                split; [reflexivity|intros H; peel H; contradiction]).
      all: try (intros [E|E]; discriminate).
      all: try (intros b'; simpl; first [exact (I6 b')|exact (I7 b')]).
      all: intros b' Hb; destruct (Nat.eq_dec b' (next_id s)) as [->|Hne];
        [right; pick|].
      all: destruct (I4 b' ltac:(lia)) as [H|H]; [left; simpl; auto|].
      all: rewrite Hpc in H; destruct H as [E|[E|E]]; discriminate.
    + (* StepReadEnd *)
      unfold inv_ids, in_flight, set_pc; cbn.
      split; [lia|split; [exact I2|split; [|split; [|split; [|split]]]]].
      * intros b [E|[E|E]]; discriminate.
      * intros b Hb; destruct (I4 b Hb) as [H|H]; [left; exact H|].
        rewrite Hpc in H; destruct H as [E|[E|E]]; discriminate.
      * intros _; exact Hu.
      * exact I6.
      * exact I7.
    + (* StepWaitCnt *)
      unfold inv_ids, in_flight, set_pc; cbn.
      split; [lia|split; [exact I2|split; [|split; [|split; [|split]]]]].
      * intros b' [E|[E|E]]; try discriminate; injection E as <-.
        apply I3; left; exact Hpc.
      * intros b' Hb; destruct (I4 b' Hb) as [H|H]; [left; exact H|].
        rewrite Hpc in H; destruct H as [E|[E|E]]; try discriminate.
        injection E as ->; right; right; left; reflexivity.
      * intros [E|E]; discriminate.
      * exact I6.
      * exact I7.
    + (* StepThrottle *)
      unfold inv_ids, in_flight, set_pc; cbn.
      split; [lia|split; [exact I2|split; [|split; [|split; [|split]]]]].
      * intros b' [E|[E|E]]; try discriminate; injection E as <-.
        apply I3; right; left; exact Hpc.
      * intros b' Hb; destruct (I4 b' Hb) as [H|H]; [left; exact H|].
        rewrite Hpc in H; destruct H as [E|[E|E]]; try discriminate.
        injection E as ->; right; right; right; reflexivity.
      * intros [E|E]; discriminate.
      * exact I6.
      * exact I7.
    + (* StepAdd *)
      destruct (I3 b ltac:(right; right; exact Hpc)) as [Hid Hna].
      unfold inv_ids, in_flight, tracker_add, consumer, set_pc, issue, emit,
        set_remains; cbn.
      split; [lia|split; [|split; [|split; [|split; [|split]]]]].
      * intros b' H; peel H; destruct H as [E|H];
          [injection E as <-; lia|apply I2 in H; lia].
      * intros b' [E|[E|E]]; discriminate.
      * intros b' Hb; destruct (I4 b' Hb) as [H|H]; [left; simpl; auto|].
        rewrite Hpc in H; destruct H as [E|[E|E]]; try discriminate.
        injection E as ->; left; simpl; auto.
      * intros [E|E]; discriminate.
      * intros b'; specialize (I6 b'); simpl.
        destruct (b =? b'); simpl; lia.
      * intros b'; specialize (I7 b'); simpl.
        destruct (b =? b') eqn:E; simpl; [|exact I7].
        apply Nat.eqb_eq in E; subst b'; rewrite (no_add_count b _ Hna); lia.
    + (* StepDrain *)
      unfold inv_ids, in_flight, set_pc, emit; cbn.
      split; [lia|split; [|split; [|split; [|split; [|split]]]]].
      * intros b H; peel H; exact (I2 b H).
      * intros b [E|[E|E]]; discriminate.
      * intros b Hb; destruct (I4 b Hb) as [H|H]; [left; simpl; auto|].
        rewrite Hpc in H; destruct H as [E|[E|E]]; discriminate.
      * intros _; apply I5; left; exact Hpc.
      * exact I6.
      * exact I7.
    + (* StepStore *)
      unfold inv_ids, in_flight.
      rewrite store_done_pc, store_done_unread, store_done_next_id; cbn.
      split; [exact I1|split; [|split; [|split; [|split; [|split]]]]].
      * intros b H; rewrite (proj1 (store_done_adds op _ b)) in H; exact (I2 b H).
      * intros b Hb; destruct (I3 b Hb) as [H1 H2]; split; [exact H1|].
        rewrite (proj1 (store_done_adds op _ b)); exact H2.
      * intros b Hb; rewrite (proj1 (store_done_adds op _ b)); exact (I4 b Hb).
      * exact I5.
      * intros b; rewrite store_done_counts, (proj2 (store_done_adds op _ b)).
        cbn; rewrite <- (I6 b), Hp, filter_remove; lia.
      * intros b; rewrite (proj2 (store_done_adds op _ b)); exact (I7 b).
Qed.

Lemma reach_no_push n s :
  reachable job n s ->
  (JobType_eqb (type job) kTraining = false -> forall b,
     ~ In (EPushGradient b) (trace s) /\ ~ In (OpPushGradient b) (pending s)) /\
  (push_cnt job = false -> forall b,
     ~ In (EPushFeaCount b) (trace s) /\ ~ In (OpPushFeaCount b) (pending s)).
Proof.
  induction 1 as [|s s' Hr IH Hs].
  - simpl; split; intros _ b; tauto.
  - destruct IH as [IG IF].
    destruct Hs as
      [s u Hpc Hu|s Hpc Hu|s b Hpc Hn|s b Hpc Hle|s b Hpc|s Hpc Hr0|s l1 op l2 Hp].
    + destruct (push_cnt job) eqn:Epc; unfold set_pc, issue, emit; cbn;
        split; intros Ht b'; try discriminate Ht;
        (split; [intros H; peel H|intros H; peel H]);
        first [exact (proj1 (IG Ht b') H)|exact (proj2 (IG Ht b') H)
              |exact (proj1 (IF Ht b') H)|exact (proj2 (IF Ht b') H)].
    + unfold set_pc; cbn; split; assumption.
    + unfold set_pc; cbn; split; assumption.
    + unfold set_pc; cbn; split; assumption.
    + unfold tracker_add, consumer, set_pc, issue, emit, set_remains; cbn.
      split; intros Ht b'; (split; [intros H; peel H|intros H; peel H]);
        first [exact (proj1 (IG Ht b') H)|exact (proj2 (IG Ht b') H)
              |exact (proj1 (IF Ht b') H)|exact (proj2 (IF Ht b') H)].
    + unfold set_pc, emit; cbn.
      split; intros Ht b'; (split; [intros H; peel H|]);
        first [exact (proj1 (IG Ht b') H)|exact (proj2 (IG Ht b'))
              |exact (proj1 (IF Ht b') H)|exact (proj2 (IF Ht b'))].
    + assert (Hsub : forall o, In o (l1 ++ l2) -> In o (pending s))
        by (intros o Ho; rewrite Hp; apply in_app_or in Ho; apply in_or_app;
            simpl; tauto).
      destruct op as [b0|b0|b0]; simpl; unfold pull_callback, on_complete,
        set_pending, set_remains, issue, emit;
        try destruct (JobType_eqb (type job) kTraining) eqn:Et; cbn;
        split; intros Ht b'; try discriminate Ht;
        (split; [intros H; peel H|intros H; peel H]);
        first [exact (proj1 (IG Ht b') H)|exact (proj2 (IG Ht b') (Hsub _ H))
              |exact (proj1 (IF Ht b') H)|exact (proj2 (IF Ht b') (Hsub _ H))].
Qed.

End Ids.

(** A run of [ProcessFile] on [val_job0] with one batch, to the end. *)
Lemma val_job0_run :
  exists s, reachable val_job0 1 s /\ pc s = PDone /\
    In (EComplete 0) (trace s).
Proof.
  pose proof (ReachInit val_job0 1) as R.
  run_step R ltac:(eapply StepRead; reflexivity).
  run_step R0 ltac:(eapply StepThrottle; [reflexivity|simpl; lia]).
  run_step R ltac:(eapply StepAdd; reflexivity).
  run_step R0 ltac:(eapply (StepStore _ _ []); reflexivity).
  run_step R ltac:(eapply StepReadEnd; reflexivity).
  run_step R0 ltac:(eapply StepDrain; reflexivity).
  eexists; split; [exact R|split; [reflexivity|simpl; tauto]].
Qed.

(** ** Extra properties of [ProcessFile] *)

(** The completion of a batch ([on_complete]) fires at most once, at
    every point of an execution; when [ProcessFile] returns on a reader
    of [n] batches, it has fired exactly once for each batch [0 .. n-1]
    and for no other. *)
Theorem ProcessFile_complete_once (job : Job) (n : nat) (s : PState) :
  reachable job n s ->
  (forall b, length (filter (is_complete b) (trace s)) <= 1) /\
  (pc s = PDone -> forall b,
     length (filter (is_complete b) (trace s)) = if b <? n then 1 else 0).
Proof.
  intros Hr.
  destruct (reach_ids job n s Hr) as [I1 [I2 [I3 [I4 [I5 [I6 I7]]]]]].
  split; [intros b; specialize (I6 b); specialize (I7 b); lia|].
  intros Hd b.
  assert (Hu : unread s = 0) by (apply I5; right; exact Hd).
  pose proof (reach_done job n s Hr Hd) as H0.
  destruct (reach_drain job n s Hr) as [D1 _].
  assert (Hp : length (filter (batch_op_of b) (pending s)) = 0).
  { pose proof (filter_length_le (batch_op_of b) batch_op (pending s)) as Hle.
    assert (length (filter (batch_op_of b) (pending s)) <=
            length (filter batch_op (pending s))) as H1
      by (apply Hle; intros [] ; simpl; congruence).
    lia. }
  specialize (I6 b); specialize (I7 b); rewrite Hp in I6.
  destruct (b <? n) eqn:Eb.
  - apply Nat.ltb_lt in Eb.
    destruct (I4 b ltac:(lia)) as [H|H].
    + pose proof (filter_length_pos (is_add b) _ _ H) as H1.
      simpl in H1; rewrite Nat.eqb_refl in H1; specialize (H1 eq_refl); lia.
    + unfold in_flight in H; rewrite Hd in H; destruct H as [E|[E|E]]; discriminate.
  - apply Nat.ltb_ge in Eb.
    assert (~ In (EAdd b) (trace s)) as Hn by (intros H; apply I2 in H; lia).
    rewrite (no_add_count b _ Hn) in I6; lia.
Qed.

Lemma ProcessFile_complete_once_witness :
  exists s, reachable train_job0 1 s /\ pc s = PDone /\
    length (filter (is_complete 0) (trace s)) = 1.
Proof.
  destruct train_job0_run as [s [R [D _]]].
  exists s; split; [exact R|split; [exact D|]].
  exact (proj2 (ProcessFile_complete_once train_job0 1 s R) D 0).
Defined.

(** [ProcessFile] pushes only what the job asks for: a job that is not a
    training job never pushes a gradient, and a job that is not in the
    first training epoch never pushes feature counts. *)
Theorem ProcessFile_no_unrequested_push (job : Job) (n : nat) (s : PState) :
  reachable job n s ->
  (type job <> kTraining -> forall b,
     ~ In (EPushGradient b) (trace s) /\ ~ In (OpPushGradient b) (pending s)) /\
  (~ (type job = kTraining /\ epoch job = 0) -> forall b,
     ~ In (EPushFeaCount b) (trace s) /\ ~ In (OpPushFeaCount b) (pending s)).
Proof.
  intros Hr; destruct (reach_no_push job n s Hr) as [H1 H2]; split.
  - intros Ht; apply H1.
    destruct (type job); try reflexivity; contradiction.
  - intros Ht; apply H2; unfold push_cnt.
    destruct (type job) eqn:E; try reflexivity; simpl.
    destruct (epoch job) eqn:E'; [exfalso; apply Ht; auto|reflexivity].
Qed.

Lemma ProcessFile_no_unrequested_push_witness :
  exists s, reachable val_job0 1 s /\ pc s = PDone /\
    In (EComplete 0) (trace s) /\ ~ In (EPushGradient 0) (trace s).
Proof.
  destruct val_job0_run as [s [R [D C]]].
  exists s; split; [exact R|split; [exact D|split; [exact C|]]].
  exact (proj1 (proj1 (ProcessFile_no_unrequested_push val_job0 1 s R)
    ltac:(discriminate) 0)).
Defined.

End PipelineExtra.
